(** * GLprimer: the 4x4 matrix routines of [Labmaterial/GLprimer.cpp]

    The C++ file defines eight free functions on [float M[]] arguments
    ([mat4mult], [mat4identity], [mat4rotx], [mat4roty], [mat4rotz],
    [mat4scale], [mat4translate], [mat4perspective]).  Every one of them
    receives pointers and writes its result through the output pointer, so
    the embedding threads an explicit memory through each call and keeps the
    pointers: two arguments may denote the same, or overlapping, storage.

    The arithmetic is kept abstract in the classes [Arith] and [Trig] and is
    instantiated twice: with the real numbers (exact arithmetic), where the
    algebraic laws of the product are stated, and with IEEE-754 binary32
    values built on [SpecFloat], the C type [float], where infinities, NaNs
    and signed zeros exist and every operation rounds. *)

From Stdlib Require Import ZArith List Bool Lia.
From Stdlib Require Import Reals Lra RNsatz.
From Stdlib Require Import Floats.SpecFloat.
Import ListNotations.

Set Implicit Arguments.

(** ** Scalars *)

(** The operations the source applies to [float] values.  [of_int] is the
    conversion of an integer-valued literal ([0], [1], [2], [-1], [1.0]) to
    the scalar type; the class [Trig] holds the calls into [math.h]. *)
Class Arith (F : Type) : Type := {
  of_int : Z -> F;
  fadd : F -> F -> F;
  fsub : F -> F -> F;
  fmul : F -> F -> F;
  fdiv : F -> F -> F;
  fneg : F -> F
}.

Class Trig (F : Type) : Type := {
  fcos : F -> F;
  fsin : F -> F;
  ftan : F -> F
}.

Declare Scope scalar_scope.
Delimit Scope scalar_scope with sc.
Infix "+" := fadd : scalar_scope.
Infix "-" := fsub : scalar_scope.
Infix "*" := fmul : scalar_scope.
Infix "/" := fdiv : scalar_scope.
Notation "- x" := (fneg x) : scalar_scope.

(** ** Memory *)

(** A memory maps addresses to scalars.  A parameter [float M[]] is a pointer
    [M : addr]; the element [M[i]] lives at address [M + i]. *)
Definition addr := Z.
Bind Scope Z_scope with addr.

Section Memory.
Context {F : Type}.

Definition mem := addr -> F.

(** [rd m M i] is the value of the expression [M[i]]. *)
Definition rd (m : mem) (M : addr) (i : Z) : F := m (M + i)%Z.

(** [wr m M i v] is the memory after the assignment [M[i] = v]. *)
Definition wr (m : mem) (M : addr) (i : Z) (v : F) : mem :=
  fun a => if (a =? M + i)%Z then v else m a.

(** A local array such as [float Mtemp[16]] is not reachable through any
    pointer argument; it is modelled as a separate index-to-value map. *)
Definition local := Z -> F.

Definition lset (t : local) (i : Z) (v : F) : local :=
  fun j => if (j =? i)%Z then v else t j.

(** [for_up n i body m] runs [body i], [body (i+1)], ... for [n]
    iterations: the loop [for (int k = i; k < i + n; k++) body]. *)
Fixpoint for_up (n : nat) (i : Z) (body : Z -> mem -> mem) (m : mem) : mem :=
  match n with
  | O => m
  | S k => for_up k (i + 1)%Z body (body i m)
  end.

(** The sixteen indices of a matrix, and the matrix stored at [M]. *)
Definition idx16 : list Z := [0; 1; 2; 3; 4; 5; 6; 7; 8; 9; 10; 11; 12; 13; 14; 15]%Z.

Definition load16 (m : mem) (M : addr) : list F := map (rd m M) idx16.

(** Two sixteen-element buffers that share no address. *)
Definition disjoint16 (p q : addr) : Prop := (p + 16 <= q \/ q + 16 <= p)%Z.

(** The addresses of the buffer at [M]. *)
Definition within16 (M a : addr) : Prop := (M <= a < M + 16)%Z.
End Memory.

Arguments mem : clear implicits.
Arguments local : clear implicits.

(** ** The matrix routines *)

Section Mat4.
Context {F : Type} {Ar : Arith F} {Tr : Trig F}.
Local Open Scope Z_scope.
Local Open Scope scalar_scope.

(** [mat4mult(M1, M2, Mout)], lines 75-101.  [junk] is the indeterminate
    initial content of the local array [Mtemp]. *)
Definition mat4mult (junk : local F) (m : mem F) (M1 M2 Mout : addr) : mem F :=
  let Mtemp := junk in
  let A := rd m M1 in
  let B := rd m M2 in
  let Mtemp := lset Mtemp 0 (A 0 * B 0 + A 4 * B 1 + A 8 * B 2 + A 12 * B 3) in
  let Mtemp := lset Mtemp 4 (A 0 * B 4 + A 4 * B 5 + A 8 * B 6 + A 12 * B 7) in
  let Mtemp := lset Mtemp 8 (A 0 * B 8 + A 4 * B 9 + A 8 * B 10 + A 12 * B 11) in
  let Mtemp := lset Mtemp 12 (A 0 * B 12 + A 4 * B 13 + A 8 * B 14 + A 12 * B 15) in

  let Mtemp := lset Mtemp 1 (A 1 * B 0 + A 5 * B 1 + A 9 * B 2 + A 13 * B 3) in
  let Mtemp := lset Mtemp 5 (A 1 * B 4 + A 5 * B 5 + A 9 * B 6 + A 13 * B 7) in
  let Mtemp := lset Mtemp 9 (A 1 * B 8 + A 5 * B 9 + A 9 * B 10 + A 13 * B 11) in
  let Mtemp := lset Mtemp 13 (A 1 * B 12 + A 5 * B 13 + A 9 * B 14 + A 13 * B 15) in

  let Mtemp := lset Mtemp 2 (A 2 * B 0 + A 6 * B 1 + A 10 * B 2 + A 14 * B 3) in
  let Mtemp := lset Mtemp 6 (A 2 * B 4 + A 6 * B 5 + A 10 * B 6 + A 14 * B 7) in
  let Mtemp := lset Mtemp 10 (A 2 * B 8 + A 6 * B 9 + A 10 * B 10 + A 14 * B 11) in
  let Mtemp := lset Mtemp 14 (A 2 * B 12 + A 6 * B 13 + A 10 * B 14 + A 14 * B 15) in

  let Mtemp := lset Mtemp 3 (A 3 * B 0 + A 7 * B 1 + A 11 * B 2 + A 15 * B 3) in
  let Mtemp := lset Mtemp 7 (A 3 * B 4 + A 7 * B 5 + A 11 * B 6 + A 15 * B 7) in
  let Mtemp := lset Mtemp 11 (A 3 * B 8 + A 7 * B 9 + A 11 * B 10 + A 15 * B 11) in
  let Mtemp := lset Mtemp 15 (A 3 * B 12 + A 7 * B 13 + A 11 * B 14 + A 15 * B 15) in

  for_up 16 0 (fun i m => wr m Mout i (Mtemp i)) m.

(** [mat4identity(M)], lines 103-123. *)
Definition mat4identity (m : mem F) (M : addr) : mem F :=
  let m := wr m M 0 (of_int 1) in
  let m := wr m M 1 (of_int 0) in
  let m := wr m M 2 (of_int 0) in
  let m := wr m M 3 (of_int 0) in

  let m := wr m M 4 (of_int 0) in
  let m := wr m M 5 (of_int 1) in
  let m := wr m M 6 (of_int 0) in
  let m := wr m M 7 (of_int 0) in

  let m := wr m M 8 (of_int 0) in
  let m := wr m M 9 (of_int 0) in
  let m := wr m M 10 (of_int 1) in
  let m := wr m M 11 (of_int 0) in

  let m := wr m M 12 (of_int 0) in
  let m := wr m M 13 (of_int 0) in
  let m := wr m M 14 (of_int 0) in
  wr m M 15 (of_int 1).

(** [mat4rotx(M, angle)], lines 125-132. *)
Definition mat4rotx (m : mem F) (M : addr) (angle : F) : mem F :=
  let m := mat4identity m M in
  let m := wr m M 5 (fcos angle) in
  let m := wr m M 6 (fsin angle) in
  let m := wr m M 9 (- fsin angle) in
  wr m M 10 (fcos angle).

(** [mat4roty(M, angle)], lines 134-141. *)
Definition mat4roty (m : mem F) (M : addr) (angle : F) : mem F :=
  let m := mat4identity m M in
  let m := wr m M 0 (fcos angle) in
  let m := wr m M 2 (- fsin angle) in
  let m := wr m M 8 (fsin angle) in
  wr m M 10 (fcos angle).

(** [mat4rotz(M, angle)], lines 143-151. *)
Definition mat4rotz (m : mem F) (M : addr) (angle : F) : mem F :=
  let m := mat4identity m M in
  let m := wr m M 0 (fcos angle) in
  let m := wr m M 1 (fsin angle) in
  let m := wr m M 4 (- fsin angle) in
  wr m M 5 (fcos angle).

(** [mat4scale(M, scale)], lines 153-160. *)
Definition mat4scale (m : mem F) (M : addr) (scale : F) : mem F :=
  let m := mat4identity m M in
  let m := wr m M 0 scale in
  let m := wr m M 5 scale in
  let m := wr m M 10 scale in
  wr m M 15 scale.

(** [mat4translate(M, x, y, z)], lines 162-168. *)
Definition mat4translate (m : mem F) (M : addr) (x y z : F) : mem F :=
  let m := mat4identity m M in
  let m := wr m M 12 x in
  let m := wr m M 13 y in
  wr m M 14 z.

(** [mat4perspective(M, vfov, aspect, znear, zfar)], lines 170-180. *)
Definition mat4perspective (m : mem F) (M : addr) (vfov aspect znear zfar : F) : mem F :=
  let m := mat4identity m M in
  let f := of_int 1 / ftan (vfov / of_int 2) in
  let m := wr m M 0 (f / aspect) in
  let m := wr m M 5 f in
  let m := wr m M 10 (- ((zfar + znear) / (zfar - znear))) in
  let m := wr m M 11 (of_int (-1)) in
  let m := wr m M 14 (- ((of_int 2 * zfar * znear) / (zfar - znear))) in
  wr m M 15 (of_int 0).

(** The model-view computation of the render loop, [main] lines 342-345:
  [mat4mult(Rz, Rx, MV); mat4translate(T, 0, 0, -5.0); mat4mult(T, MV, MV);]
  The second product writes into one of its own operands.  Each call of
  [mat4mult] has its own uninitialised [Mtemp]. *)
Definition main_modelview (junk1 junk2 : local F) (m : mem F) (Rz Rx T MV : addr) : mem F :=
  let m := mat4mult junk1 m Rz Rx MV in
  let m := mat4translate m T (of_int 0) (of_int 0) (of_int (-5)) in
  mat4mult junk2 m T MV MV.

(** *** Matrices as values *)

(** A matrix read out of memory is the list of its sixteen elements;
  [elt A i] is element [i] of such a list. *)
Definition elt (A : list F) (i : Z) : F := nth (Z.to_nat i) A (of_int 0).

(** The sixteen elements of the identity, as [mat4identity] writes them. *)
Definition identity_elems : list F :=
  [of_int 1; of_int 0; of_int 0; of_int 0;
   of_int 0; of_int 1; of_int 0; of_int 0;
   of_int 0; of_int 0; of_int 1; of_int 0;
   of_int 0; of_int 0; of_int 0; of_int 1].

(** *** The product the specification asks for

  Written from the specification, not from the source: the matrix [A·B]
  in column-major layout.  The element in row [r] and column [c] sits at
  index [c*4+r] and is the sum over [k] of [A(r,k) * B(k,c)]; the four
  terms are added from left to right. *)
Definition col_major (r c : Z) : Z := c * 4 + r.

Definition spec_entry (A B : list F) (r c : Z) : F :=
  elt A (col_major r 0) * elt B (col_major 0 c)
  + elt A (col_major r 1) * elt B (col_major 1 c)
  + elt A (col_major r 2) * elt B (col_major 2 c)
  + elt A (col_major r 3) * elt B (col_major 3 c).

Definition spec_product (A B : list F) : list F :=
  map (fun i => spec_entry A B (i mod 4) (i / 4)) idx16.

(** *** A multiplication without the temporary

  Not in the source: the sixteen assignments of [mat4mult] with [Mout] in
  place of [Mtemp] and the copy loop dropped.  It is kept only to show what
  the temporary is for; see [direct_write_corrupts]. *)
Definition mult_without_temp (m : mem F) (M1 M2 Mout : addr) : mem F :=
  let step (i : Z) (a0 b0 a1 b1 a2 b2 a3 b3 : Z) (m : mem F) :=
    wr m Mout i (rd m M1 a0 * rd m M2 b0 + rd m M1 a1 * rd m M2 b1
                 + rd m M1 a2 * rd m M2 b2 + rd m M1 a3 * rd m M2 b3) in
  let m := step 0 0 0 4 1 8 2 12 3 m in
  let m := step 4 0 4 4 5 8 6 12 7 m in
  let m := step 8 0 8 4 9 8 10 12 11 m in
  let m := step 12 0 12 4 13 8 14 12 15 m in
  let m := step 1 1 0 5 1 9 2 13 3 m in
  let m := step 5 1 4 5 5 9 6 13 7 m in
  let m := step 9 1 8 5 9 9 10 13 11 m in
  let m := step 13 1 12 5 13 9 14 13 15 m in
  let m := step 2 2 0 6 1 10 2 14 3 m in
  let m := step 6 2 4 6 5 10 6 14 7 m in
  let m := step 10 2 8 6 9 10 10 14 11 m in
  let m := step 14 2 12 6 13 10 14 14 15 m in
  let m := step 3 3 0 7 1 11 2 15 3 m in
  let m := step 7 3 4 7 5 11 6 15 7 m in
  let m := step 11 3 8 7 9 11 10 15 11 m in
  step 15 3 12 7 13 11 14 15 15 m.
End Mat4.

(** ** The matrix part of the render loop

    One pass of the [while] loop of [main], lines 301-406, restricted to the
    statements that touch the seven matrix buffers declared at lines 209-231
    and to the calls that hand a matrix to the graphics library or draw a
    mesh.  A call [glUniformMatrix4fv(location, 1, GL_FALSE, M)] is recorded
    as the event [Upload] with the sixteen elements [M] holds at that
    point; [dino.render()] and [earth.render()] are recorded as [Draw]. *)

(** The three matrix uniforms of the shader program. *)
Inductive uniform : Set := location_LV | location_MV | location_P.

(** The two meshes. *)
Inductive mesh : Set := dino | earth.

(** The addresses of the arrays [MV], [P], [LV], [T], [R], [Rx] and [Rz]. *)
Record buffers : Set := {
  buf_MV : addr;
  buf_P : addr;
  buf_LV : addr;
  buf_T : addr;
  buf_R : addr;
  buf_Rx : addr;
  buf_Rz : addr
}.

(** The seven arrays are distinct objects: no two of them share a cell. *)
Fixpoint all_disjoint (l : list addr) : Prop :=
  match l with
  | [] => True
  | p :: rest => Forall (disjoint16 p) rest /\ all_disjoint rest
  end.

Definition buffers_ok (b : buffers) : Prop :=
  all_disjoint [buf_MV b; buf_P b; buf_LV b; buf_T b; buf_R b; buf_Rx b; buf_Rz b].

(** An address that belongs to one of the seven arrays. *)
Definition in_buffers (b : buffers) (a : addr) : Prop :=
  Exists (fun M => within16 M a)
    [buf_MV b; buf_P b; buf_LV b; buf_T b; buf_R b; buf_Rx b; buf_Rz b].

(** A layout with the seven arrays one after the other. *)
Definition main_buffers : buffers := {|
  buf_MV := 0;
  buf_P := 16;
  buf_LV := 32;
  buf_T := 48;
  buf_R := 64;
  buf_Rx := 80;
  buf_Rz := 96
|}.

Section RenderLoop.
Context {F : Type} {Ar : Arith F} {Tr : Trig F}.

Inductive gl_event : Type :=
  | Upload (u : uniform) (M : list F)
  | Draw (o : mesh).

(** What one pass reads from outside: the angles polled from the mouse and
    the keyboard rotators and the time returned by [glfwGetTime]. *)
Record inputs : Type := {
  mouse_phi : F;
  mouse_theta : F;
  key_phi : F;
  key_theta : F;
  time : F
}.

(** The [float] values of the four literals of the loop that are not
    integers: [M_PI/6], [0.1], [M_PI/2] and [-1.2]. *)
Record literals : Type := {
  lit_pi_6 : F;
  lit_0_1 : F;
  lit_pi_2 : F;
  lit_neg_1_2 : F
}.

(** Lines 328-377.  [junk k] is the indeterminate initial content of
    [Mtemp] in the [k]-th call of [mat4mult]; lines 342-345 are
    [main_modelview]. *)
Definition render_frame (junk : nat -> local F) (b : buffers) (c : literals)
    (i : inputs) (m : mem F) : mem F * list gl_event :=
  let m := mat4rotz m (buf_Rz b) (mouse_phi i) in
  let m := mat4rotx m (buf_Rx b) (mouse_theta i) in
  let m := mat4mult (junk 0%nat) m (buf_Rz b) (buf_Rx b) (buf_LV b) in
  let e1 := Upload location_LV (load16 m (buf_LV b)) in
  let m := mat4identity m (buf_MV b) in
  let m := mat4roty m (buf_Rz b) (key_phi i) in
  let m := mat4rotx m (buf_Rx b) (key_theta i) in
  let m := main_modelview (junk 1%nat) (junk 2%nat) m
             (buf_Rz b) (buf_Rx b) (buf_T b) (buf_MV b) in
  let m := mat4perspective m (buf_P b) (lit_pi_6 c) (of_int 1) (lit_0_1 c) (of_int 100) in
  let e2 := Upload location_MV (load16 m (buf_MV b)) in
  let e3 := Upload location_P (load16 m (buf_P b)) in
  let e4 := Draw dino in
  let m := mat4rotz m (buf_MV b) (lit_pi_2 c) in
  let m := mat4translate m (buf_MV b) (of_int 0) (of_int 0) (lit_neg_1_2 c) in
  let m := mat4roty m (buf_R b) (time i) in
  let m := mat4translate m (buf_T b) (of_int 0) (of_int 0) (of_int (-5)) in
  let m := mat4mult (junk 3%nat) m (buf_R b) (buf_MV b) (buf_MV b) in
  let m := mat4mult (junk 4%nat) m (buf_T b) (buf_MV b) (buf_MV b) in
  let e5 := Upload location_MV (load16 m (buf_MV b)) in
  let e6 := Upload location_P (load16 m (buf_P b)) in
  let e7 := Draw earth in
  (m, [e1; e2; e3; e4; e5; e6; e7]).

(** The matrices the constructors write, as values. *)
Definition rotx_elems (angle : F) : list F :=
  [of_int 1; of_int 0; of_int 0; of_int 0;
   of_int 0; fcos angle; fsin angle; of_int 0;
   of_int 0; fneg (fsin angle); fcos angle; of_int 0;
   of_int 0; of_int 0; of_int 0; of_int 1].

Definition roty_elems (angle : F) : list F :=
  [fcos angle; of_int 0; fneg (fsin angle); of_int 0;
   of_int 0; of_int 1; of_int 0; of_int 0;
   fsin angle; of_int 0; fcos angle; of_int 0;
   of_int 0; of_int 0; of_int 0; of_int 1].

Definition rotz_elems (angle : F) : list F :=
  [fcos angle; fsin angle; of_int 0; of_int 0;
   fneg (fsin angle); fcos angle; of_int 0; of_int 0;
   of_int 0; of_int 0; of_int 1; of_int 0;
   of_int 0; of_int 0; of_int 0; of_int 1].

Definition translate_elems (x y z : F) : list F :=
  [of_int 1; of_int 0; of_int 0; of_int 0;
   of_int 0; of_int 1; of_int 0; of_int 0;
   of_int 0; of_int 0; of_int 1; of_int 0;
   x; y; z; of_int 1].

Definition scale_elems (s : F) : list F :=
  [s; of_int 0; of_int 0; of_int 0;
   of_int 0; s; of_int 0; of_int 0;
   of_int 0; of_int 0; s; of_int 0;
   of_int 0; of_int 0; of_int 0; s].

Definition perspective_elems (vfov aspect znear zfar : F) : list F :=
  [fdiv (fdiv (of_int 1) (ftan (fdiv vfov (of_int 2)))) aspect;
   of_int 0; of_int 0; of_int 0;
   of_int 0; fdiv (of_int 1) (ftan (fdiv vfov (of_int 2))); of_int 0; of_int 0;
   of_int 0; of_int 0; fneg (fdiv (fadd zfar znear) (fsub zfar znear)); of_int (-1);
   of_int 0; of_int 0;
   fneg (fdiv (fmul (fmul (of_int 2) zfar) znear) (fsub zfar znear)); of_int 0].
(** The [while] loop of lines 301-406, for the passes made before the
    window is closed: [frames] holds what each pass polls, and [junk k] the
    stack contents met by the calls of the [k]-th pass. *)
Fixpoint render_loop (junk : nat -> nat -> local F) (b : buffers) (c : literals)
    (frames : list inputs) (k : nat) (m : mem F) : mem F * list gl_event :=
  match frames with
  | [] => (m, [])
  | i :: rest =>
      let '(m1, es) := render_frame (junk k) b c i m in
      let '(m2, es') := render_loop junk b c rest (S k) m1 in
      (m2, es ++ es')
  end.

(** The events of a pass with the inputs [i], written with the products
    and the projection as values; [render_frame_events] shows that
    [render_frame] produces them. *)
Definition pass_events (c : literals) (i : inputs) : list gl_event :=
  [Upload location_LV
     (spec_product (rotz_elems (mouse_phi i)) (rotx_elems (mouse_theta i)));
   Upload location_MV
     (spec_product (translate_elems (of_int 0) (of_int 0) (of_int (-5)))
        (spec_product (roty_elems (key_phi i)) (rotx_elems (key_theta i))));
   Upload location_P
     (perspective_elems (lit_pi_6 c) (of_int 1) (lit_0_1 c) (of_int 100));
   Draw dino;
   Upload location_MV
     (spec_product (translate_elems (of_int 0) (of_int 0) (of_int (-5)))
        (spec_product (roty_elems (time i))
           (translate_elems (of_int 0) (of_int 0) (lit_neg_1_2 c))));
   Upload location_P
     (perspective_elems (lit_pi_6 c) (of_int 1) (lit_0_1 c) (of_int 100));
   Draw earth].

(** The matrices handed to one uniform during a pass, in order. *)
Definition uniform_eqb (u v : uniform) : bool :=
  match u, v with
  | location_LV, location_LV | location_MV, location_MV | location_P, location_P => true
  | _, _ => false
  end.

Definition uploads_to (u : uniform) (es : list gl_event) : list (list F) :=
  flat_map (fun e => match e with
                     | Upload u' M => if uniform_eqb u u' then [M] else []
                     | Draw _ => []
                     end) es.
End RenderLoop.

Arguments gl_event : clear implicits.
Arguments inputs : clear implicits.
Arguments literals : clear implicits.

(** ** Exact arithmetic: the real numbers *)

#[export] Instance arithR : Arith R := {|
  of_int := IZR;
  fadd := Rplus;
  fsub := Rminus;
  fmul := Rmult;
  fdiv := Rdiv;
  fneg := Ropp
|}.

#[export] Instance trigR : Trig R := {|
  fcos := cos;
  fsin := sin;
  ftan := tan
|}.

(** [close eps x y]: [x] and [y] differ by less than the tolerance [eps]. *)
Definition close (eps x y : R) : Prop := (Rabs (x - y) < eps)%R.

(** The scalar product of the upper three elements of columns [c] and
    [c'] of a matrix. *)
Definition dot3 (A : list R) (c c' : Z) : R :=
  (elt A (col_major 0 c) * elt A (col_major 0 c')
   + elt A (col_major 1 c) * elt A (col_major 1 c')
   + elt A (col_major 2 c) * elt A (col_major 2 c'))%R.

(** A rigid motion: the upper-left 3x3 block has orthonormal columns and
    the bottom row is (0, 0, 0, 1). *)
Definition rigid (A : list R) : Prop :=
  dot3 A 0 0 = 1%R /\ dot3 A 1 1 = 1%R /\ dot3 A 2 2 = 1%R
  /\ dot3 A 0 1 = 0%R /\ dot3 A 0 2 = 0%R /\ dot3 A 1 2 = 0%R
  /\ elt A 3 = 0%R /\ elt A 7 = 0%R /\ elt A 11 = 0%R /\ elt A 15 = 1%R.

(** The four literals of the loop as real numbers, and some inputs. *)
Definition literals_exact : literals R := {|
  lit_pi_6 := (PI / 6)%R;
  lit_0_1 := 0.1%R;
  lit_pi_2 := (PI / 2)%R;
  lit_neg_1_2 := (-1.2)%R
|}.

Definition inputs_exact : inputs R := {|
  mouse_phi := 1%R;
  mouse_theta := 2%R;
  key_phi := 3%R;
  key_theta := 4%R;
  time := 5%R
|}.

(** ** Machine arithmetic: IEEE-754 binary32, the C type [float]

    Every [float] operation of the source is one binary32 operation rounded
    to nearest even, as on a target that evaluates [float] expressions in
    their own format.  The calls into [math.h] stay parameters (a [Trig]
    instance): nothing is assumed about them but what a theorem states as
    a hypothesis ([libm_accurate]), and the double-precision intermediate
    of [1.0/tan(vfov/2)] is part of that parameter. *)

Module Binary32.

Definition prec : Z := 24.
Definition emax : Z := 128.

Abbreviation float32 := spec_float.

(** Conversion of an integer to [float], rounding to nearest even. *)
Definition of_Z (z : Z) : float32 := binary_normalize prec emax z 0 false.

#[export] Instance arith32 : Arith float32 := {|
  of_int := of_Z;
  fadd := SFadd prec emax;
  fsub := SFsub prec emax;
  fmul := SFmul prec emax;
  fdiv := SFdiv prec emax;
  fneg := SFopp
|}.

(** A value a [float] object can hold. *)
Definition valid32 (x : float32) : bool := valid_binary prec emax x.

(** [isfinite(x)]: neither an infinity nor a NaN. *)
Definition is_finite (x : float32) : bool :=
  match x with
  | S754_zero _ | S754_finite _ _ _ => true
  | S754_infinity _ | S754_nan => false
  end.

(** The comparison [x == y] of C. *)
Definition feq (x y : float32) : bool := SFeqb x y.

(** A finite [float] value. *)
Definition finite32 (x : float32) : bool := valid32 x && is_finite x.

(** A NaN or an infinity: what [!isfinite(x)] tests. *)
Definition non_finite (x : float32) : bool := negb (is_finite x).

(** Element-wise [==] of two matrices. *)
Definition feq16 (A B : list float32) : Prop :=
  Forall2 (fun a b => feq a b = true) A B.

(** The real number a finite value stands for, [(-1)^s * m * 2^e]; zero for
    the other values. *)
Definition B2R (x : float32) : R :=
  match x with
  | S754_finite s m e =>
      let n := IZR (if s then Zneg m else Zpos m) in
      match e with
      | Z0 => n
      | Zpos p => (n * IZR (Zpos (2 ^ p)))%R
      | Zneg p => (n / IZR (Zpos (2 ^ p)))%R
      end
  | _ => 0%R
  end.

(** The [float] nearest to 0.1, [0x1.99999ap-4f]. *)
Definition f0_1 : float32 := S754_finite false 13421773 (-27).

(** *** Concrete memories for the examples *)

(** A memory of zeros and a memory of ones. *)
Definition zeros : mem float32 := fun _ => S754_zero false.
Definition ones : mem float32 := fun _ => of_Z 1.

Definition pinf : float32 := S754_infinity false.
Definition negzero : float32 := S754_zero true.

(** The identity at address 16 with [+infinity] stored over element 1. *)
Definition mem_inf : mem float32 := wr (mat4identity zeros 16) 16 1 pinf.

(** The identity at address 16 with [-0.0f] stored over element 0. *)
Definition mem_negzero : mem float32 := wr (mat4identity zeros 16) 16 0 negzero.

(** The matrix [translate(1, 2, 3)] at address 16. *)
Definition mem_translate : mem float32 :=
  mat4translate zeros 16 (of_Z 1) (of_Z 2) (of_Z 3).

(** A memory of zeros with a NaN stored at address 0. *)
Definition mem_nan : mem float32 := wr zeros 0 0 S754_nan.

(** Some functions in place of [cos], [sin] and [tan], to close examples:
    the constant 1 and the argument itself, which are the cosine and the
    sine at 0 and close to them at a small angle. *)
Definition some_libm : Trig float32 := {|
  fcos := fun _ => of_Z 1;
  fsin := fun x => x;
  ftan := fun x => x
|}.

(** *** Rounding

    What the analysis of the rounding error of [+] and [*] is stated
    with. *)

Definition b2z (b : bool) : Z := if b then 1%Z else 0%Z.

(** What a record stands for after [k] shifts of the mantissa [m]:
    [2*m = 2^k * (2*shr_m + shr_r) + t] with [0 <= t < 2^k], the sticky bit
    telling whether [t] is zero. *)
Definition shr_inv (m : Z) (k : Z) (mrs : shr_record) : Prop :=
  (0 <= shr_m mrs)%Z /\
  exists t : Z, (2 * m = 2 ^ k * (2 * shr_m mrs + b2z (shr_r mrs)) + t)%Z
                /\ (0 <= t < 2 ^ k)%Z /\ (shr_s mrs = false <-> t = 0%Z).

(** [val s x m2 E]: [x] is the finite value of sign [s] and magnitude
    [m2 * 2^E]. *)
Definition val (s : bool) (x : float32) (m2 E : Z) : Prop :=
  match x with
  | S754_zero s' => s' = s /\ m2 = 0%Z
  | S754_finite s' q E' => s' = s /\ (Zpos q * 2 ^ (E' - E))%Z = m2 /\ (E <= E')%Z
  | _ => False
  end.

(** The real value of a sign, a mantissa and an exponent. *)
Definition F2R (s : bool) (m : Z) (e : Z) : R :=
  (IZR (cond_Zopp s m) * powerRZ 2 e)%R.

(** Half a unit in the last place of a value of magnitude below 2: what one
    rounding to nearest can move such a value by. *)
Definition half_ulp : R := powerRZ 2 (-24).

(** *** Approximate equality and the accuracy of [cos] and [sin] *)

(** [approx eps a b]: the [float] value [a] is finite and stands for a real
    number that differs from [b] by less than [eps].  A NaN or an infinity
    approximates nothing. *)
Definition approx (eps : R) (a : float32) (b : R) : Prop :=
  is_finite a = true /\ close eps (B2R a) b.

(** Element-wise [approx] of a [float] matrix and a real matrix. *)
Definition approx16 (eps : R) (A : list float32) (B : list R) : Prop :=
  Forall2 (approx eps) A B.

(** The absolute error allowed to [cos] and [sin], one unit in the last
    place of a value between 1/2 and 1. *)
Definition libm_tol : R := powerRZ 2 (-23).

(** [libm_accurate Tr x]: at the argument [x] the library returns finite
    values for the cosine and the sine, within [libm_tol] of the real
    cosine and sine of [x]. *)
Definition libm_accurate (Tr : Trig float32) (x : float32) : Prop :=
  is_finite (fcos x) = true /\ is_finite (fsin x) = true
  /\ (Rabs (B2R (fcos x) - cos (B2R x)) <= libm_tol)%R
  /\ (Rabs (B2R (fsin x) - sin (B2R x)) <= libm_tol)%R.

(** Functions in place of [cos], [sin] and [tan] that return a NaN at an
    infinite or NaN argument, as Annex F of the C standard requires; what
    they return at a finite argument plays no role. *)
Definition libm_nan_at_infinity : Trig float32 := {|
  fcos := fun x => if is_finite x then of_Z 1 else S754_nan;
  fsin := fun x => if is_finite x then x else S754_nan;
  ftan := fun x => if is_finite x then x else S754_nan
|}.

(** The angle [2^-23], a [float]. *)
Definition tiny_angle : float32 := S754_finite false 8388608 (-46).

End Binary32.

(** * Properties *)

(** ** Reading and writing memory *)

Section MemoryFacts.
Context {F : Type}.
Local Open Scope Z_scope.

Lemma rd_wr_same (m : mem F) (M : addr) (i : Z) (v : F) :
  rd (wr m M i v) M i = v.
Proof. unfold rd, wr. now rewrite Z.eqb_refl. Qed.

Lemma rd_wr_other (m : mem F) (M N : addr) (i j : Z) (v : F) :
  M + i <> N + j -> rd (wr m M i v) N j = rd m N j.
Proof.
  intros Hne. unfold rd, wr.
  destruct (Z.eqb_spec (N + j) (M + i)) as [E|_]; [lia | reflexivity].
Qed.

Lemma rd_wr_base (m : mem F) (M : addr) (i j : Z) (v : F) :
  rd (wr m M i v) M j = if j =? i then v else rd m M j.
Proof.
  unfold rd, wr.
  destruct (Z.eqb_spec (M + j) (M + i)), (Z.eqb_spec j i); try reflexivity; lia.
Qed.

Lemma wr_outside (m : mem F) (M : addr) (i : Z) (v : F) (a : addr) :
  a <> M + i -> wr m M i v a = m a.
Proof.
  intros Hne. unfold wr. destruct (Z.eqb_spec a (M + i)); [contradiction | reflexivity].
Qed.

Lemma cons_eq (A : Type) (x y : A) (l l' : list A) :
  x = y -> l = l' -> x :: l = y :: l'.
Proof. congruence. Qed.

Lemma load16_length (m : mem F) (M : addr) : length (load16 m M) = 16%nat.
Proof. reflexivity. Qed.

Lemma load16_ext (m m' : mem F) (M : addr) :
  (forall a, within16 M a -> m a = m' a) -> load16 m M = load16 m' M.
Proof.
  intros H. unfold load16, idx16, rd. cbn [map].
  repeat (apply cons_eq; [apply H; unfold within16; lia|]). reflexivity.
Qed.
End MemoryFacts.

(** Split an index known to lie in [0, 16) into its sixteen values. *)
Ltac index_cases k Hk :=
  let H := fresh "Hcases" in
  assert (H : (k = 0 \/ k = 1 \/ k = 2 \/ k = 3 \/ k = 4 \/ k = 5 \/ k = 6 \/ k = 7
               \/ k = 8 \/ k = 9 \/ k = 10 \/ k = 11 \/ k = 12 \/ k = 13 \/ k = 14
               \/ k = 15)%Z) by lia;
  clear Hk;
  repeat (destruct H as [H|H]; [subst k|]); [..|subst k].

(** The elements a routine leaves in the buffer it writes: every read goes
    through the chain of writes by comparing indices. *)
Ltac solve_load :=
  unfold load16, idx16; cbn [map];
  unfold mat4rotx, mat4roty, mat4rotz, mat4scale, mat4translate, mat4perspective;
  unfold mat4identity; cbv zeta;
  repeat (apply cons_eq; [rewrite ?rd_wr_base; reflexivity|]);
  reflexivity.

(** A routine that writes only into the buffer at [M] leaves a disjoint
    buffer as it was. *)
Ltac solve_frame :=
  let a := fresh "a" in
  let Ha := fresh "Ha" in
  let Hd := fresh "Hd" in
  intros Hd; apply load16_ext; intros a Ha;
  unfold mat4rotx, mat4roty, mat4rotz, mat4scale, mat4translate, mat4perspective;
  unfold mat4identity; cbv zeta;
  rewrite ?wr_outside by (unfold disjoint16, within16 in *; lia);
  reflexivity.

Section Mat4Facts.
Context {F : Type} {Ar : Arith F} {Tr : Trig F}.
Local Open Scope Z_scope.
Local Open Scope scalar_scope.

(** *** What each constructor writes *)

Lemma mat4identity_load (m : mem F) (M : addr) :
  load16 (mat4identity m M) M = identity_elems.
Proof. solve_load. Qed.

Lemma mat4rotx_load (m : mem F) (M : addr) (angle : F) :
  load16 (mat4rotx m M angle) M
  = [of_int 1; of_int 0; of_int 0; of_int 0;
     of_int 0; fcos angle; fsin angle; of_int 0;
     of_int 0; - fsin angle; fcos angle; of_int 0;
     of_int 0; of_int 0; of_int 0; of_int 1].
Proof. solve_load. Qed.

Lemma mat4roty_load (m : mem F) (M : addr) (angle : F) :
  load16 (mat4roty m M angle) M
  = [fcos angle; of_int 0; - fsin angle; of_int 0;
     of_int 0; of_int 1; of_int 0; of_int 0;
     fsin angle; of_int 0; fcos angle; of_int 0;
     of_int 0; of_int 0; of_int 0; of_int 1].
Proof. solve_load. Qed.

Lemma mat4rotz_load (m : mem F) (M : addr) (angle : F) :
  load16 (mat4rotz m M angle) M
  = [fcos angle; fsin angle; of_int 0; of_int 0;
     - fsin angle; fcos angle; of_int 0; of_int 0;
     of_int 0; of_int 0; of_int 1; of_int 0;
     of_int 0; of_int 0; of_int 0; of_int 1].
Proof. solve_load. Qed.

Lemma mat4scale_load (m : mem F) (M : addr) (scale : F) :
  load16 (mat4scale m M scale) M
  = [scale; of_int 0; of_int 0; of_int 0;
     of_int 0; scale; of_int 0; of_int 0;
     of_int 0; of_int 0; scale; of_int 0;
     of_int 0; of_int 0; of_int 0; scale].
Proof. solve_load. Qed.

Lemma mat4translate_load (m : mem F) (M : addr) (x y z : F) :
  load16 (mat4translate m M x y z) M
  = [of_int 1; of_int 0; of_int 0; of_int 0;
     of_int 0; of_int 1; of_int 0; of_int 0;
     of_int 0; of_int 0; of_int 1; of_int 0;
     x; y; z; of_int 1].
Proof. solve_load. Qed.

Lemma mat4perspective_load (m : mem F) (M : addr) (vfov aspect znear zfar : F) :
  load16 (mat4perspective m M vfov aspect znear zfar) M
  = [of_int 1 / ftan (vfov / of_int 2) / aspect; of_int 0; of_int 0; of_int 0;
     of_int 0; of_int 1 / ftan (vfov / of_int 2); of_int 0; of_int 0;
     of_int 0; of_int 0; - ((zfar + znear) / (zfar - znear)); of_int (-1);
     of_int 0; of_int 0; - ((of_int 2 * zfar * znear) / (zfar - znear)); of_int 0].
Proof. solve_load. Qed.

(** *** What each constructor leaves alone *)

Lemma mat4identity_frame (m : mem F) (M N : addr) :
  disjoint16 M N -> load16 (mat4identity m M) N = load16 m N.
Proof. solve_frame. Qed.

Lemma mat4rotx_frame (m : mem F) (M N : addr) (angle : F) :
  disjoint16 M N -> load16 (mat4rotx m M angle) N = load16 m N.
Proof. solve_frame. Qed.

Lemma mat4roty_frame (m : mem F) (M N : addr) (angle : F) :
  disjoint16 M N -> load16 (mat4roty m M angle) N = load16 m N.
Proof. solve_frame. Qed.

Lemma mat4rotz_frame (m : mem F) (M N : addr) (angle : F) :
  disjoint16 M N -> load16 (mat4rotz m M angle) N = load16 m N.
Proof. solve_frame. Qed.

Lemma mat4scale_frame (m : mem F) (M N : addr) (scale : F) :
  disjoint16 M N -> load16 (mat4scale m M scale) N = load16 m N.
Proof. solve_frame. Qed.

Lemma mat4translate_frame (m : mem F) (M N : addr) (x y z : F) :
  disjoint16 M N -> load16 (mat4translate m M x y z) N = load16 m N.
Proof. solve_frame. Qed.

Lemma mat4perspective_frame (m : mem F) (M N : addr) (vfov aspect znear zfar : F) :
  disjoint16 M N ->
  load16 (mat4perspective m M vfov aspect znear zfar) N = load16 m N.
Proof. solve_frame. Qed.

End Mat4Facts.

Section Mat4Mult.
Context {F : Type} {Ar : Arith F}.
Local Open Scope Z_scope.

(** The copy loop at the end of [mat4mult], for any number of iterations. *)
Lemma for_up_copy (t : local F) (Mout : addr) (n : nat) :
  forall (i : Z) (m : mem F) (a : addr),
    for_up n i (fun k m' => wr m' Mout k (t k)) m a
    = if (Mout + i <=? a) && (a <? Mout + i + Z.of_nat n)
      then t (a - Mout) else m a.
Proof.
  induction n as [|n IH]; intros i m a.
  - cbn [for_up]. destruct (Z.leb_spec (Mout + i) a), (Z.ltb_spec a (Mout + i + Z.of_nat 0));
      cbn [andb]; try reflexivity; lia.
  - cbn [for_up]. rewrite IH. unfold wr.
    destruct (Z.leb_spec (Mout + (i + 1)) a), (Z.ltb_spec a (Mout + (i + 1) + Z.of_nat n)),
             (Z.leb_spec (Mout + i) a), (Z.ltb_spec a (Mout + i + Z.of_nat (S n))),
             (Z.eqb_spec a (Mout + i));
      cbn [andb]; try reflexivity; try lia.
    subst a. f_equal. lia.
Qed.

(** The memory [mat4mult] leaves behind, address by address. *)
Lemma mat4mult_mem (junk : local F) (m : mem F) (M1 M2 Mout a : addr) :
  mat4mult junk m M1 M2 Mout a
  = if (Mout <=? a) && (a <? Mout + 16)
    then spec_entry (load16 m M1) (load16 m M2) ((a - Mout) mod 4) ((a - Mout) / 4)
    else m a.
Proof.
  unfold mat4mult. cbv zeta. rewrite for_up_copy.
  replace (Mout + 0) with Mout by lia. change (Z.of_nat 16) with 16.
  destruct (Z.leb_spec Mout a), (Z.ltb_spec a (Mout + 16)); cbn [andb]; try reflexivity.
  assert (Hk : 0 <= a - Mout < 16) by lia.
  generalize dependent (a - Mout). intros k Hk.
  index_cases k Hk; cbv -[rd fadd fmul]; reflexivity.
Qed.

(** [mat4mult] stores the product of the two matrices it finds at [M1] and
    [M2], wherever [Mout] points. *)
Lemma mat4mult_load (junk : local F) (m : mem F) (M1 M2 Mout : addr) :
  load16 (mat4mult junk m M1 M2 Mout) Mout
  = spec_product (load16 m M1) (load16 m M2).
Proof.
  unfold load16 at 1. unfold spec_product, idx16, rd. cbn [map].
  repeat (apply cons_eq;
          [rewrite mat4mult_mem;
           match goal with
           | |- context [Z.leb ?x ?y] => destruct (Z.leb_spec x y); [|lia]
           end;
           match goal with
           | |- context [Z.ltb ?x ?y] => destruct (Z.ltb_spec x y); [|lia]
           end;
           cbn [andb];
           match goal with
           | |- context [(Mout + ?k - Mout)%Z] =>
               replace (Mout + k - Mout)%Z with k by lia
           end; reflexivity|]).
  reflexivity.
Qed.

(** [mat4mult] changes nothing outside the sixteen cells of [Mout]. *)
Lemma mat4mult_frame (junk : local F) (m : mem F) (M1 M2 Mout N : addr) :
  disjoint16 Mout N ->
  load16 (mat4mult junk m M1 M2 Mout) N = load16 m N.
Proof.
  intros Hd. apply load16_ext. intros a Ha. rewrite mat4mult_mem.
  unfold disjoint16, within16 in *.
  destruct (Z.leb_spec Mout a), (Z.ltb_spec a (Mout + 16)); cbn [andb]; try reflexivity; lia.
Qed.
End Mat4Mult.

(** ** Claims that hold in any arithmetic *)

Section Constructors.
Context {F : Type} {Ar : Arith F} {Tr : Trig F}.
Local Open Scope Z_scope.

(** The result of [mat4mult] is a function of the two matrices found at
    [M1] and [M2] on entry, and of nothing else. *)
Lemma mat4mult_inputs_only (junk junk' : local F) (m m' : mem F) (M1 M2 Mout : addr) :
  load16 m M1 = load16 m' M1 ->
  load16 m M2 = load16 m' M2 ->
  load16 (mat4mult junk m M1 M2 Mout) Mout = load16 (mat4mult junk' m' M1 M2 Mout) Mout.
Proof. intros H1 H2. rewrite !mat4mult_load, H1, H2. reflexivity. Qed.

(** Two memories that agree on the cells of [M] and everywhere else agree. *)
Lemma mem_eq_split (m1 m2 : mem F) (M : addr) :
  load16 m1 M = load16 m2 M ->
  (forall a, ~ within16 M a -> m1 a = m2 a) ->
  forall a, m1 a = m2 a.
Proof.
  intros Hl Hf a.
  destruct (Z_le_gt_dec M a) as [Hlo|Hlo]; [|apply Hf; unfold within16; lia].
  destruct (Z_lt_ge_dec a (M + 16)) as [Hhi|Hhi]; [|apply Hf; unfold within16; lia].
  assert (Hk : 0 <= a - M < 16) by lia.
  replace a with (M + (a - M)) by lia.
  generalize dependent (a - M). intros k Hk.
  unfold load16, idx16 in Hl. cbn [map] in Hl. unfold rd in Hl.
  index_cases k Hk; congruence.
Qed.
End Constructors.

(** The model-view matrix of the render loop: the second product is
    computed into its own right operand and still is [T·(Rz·Rx)]. *)
Lemma main_modelview_load (F : Type) (Ar : Arith F)
    (junk1 junk2 : local F) (m : mem F) (Rz Rx T MV : addr) :
  disjoint16 T MV ->
  load16 (main_modelview junk1 junk2 m Rz Rx T MV) MV
  = spec_product
      [of_int 1; of_int 0; of_int 0; of_int 0;
       of_int 0; of_int 1; of_int 0; of_int 0;
       of_int 0; of_int 0; of_int 1; of_int 0;
       of_int 0; of_int 0; of_int (-5); of_int 1]
      (spec_product (load16 m Rz) (load16 m Rx)).
Proof.
  intros Hd. unfold main_modelview. cbv zeta.
  rewrite mat4mult_load, mat4translate_load, (mat4translate_frame _ _ _ _ Hd).
  now rewrite mat4mult_load.
Qed.

(** C1.  [mat4mult(M1, M2, Mout)] leaves in [Mout] the product of the two
    matrices found at [M1] and [M2] on entry, for every choice of the three
    pointers.  In particular a call whose output is its first operand, its
    second operand, or both, yields the same sixteen elements as a call
    with any other output buffer; the result does not depend on what
    [Mtemp] or the rest of memory held; and each of the seven constructors
    leaves sixteen elements that do not depend on the memory it started
    from. *)
Theorem mat4mult_alias_safe :
  forall (F : Type) (Ar : Arith F) (Tr : Trig F)
         (junk junk' : local F) (m : mem F) (A B fresh : addr),
    (forall Mout : addr,
        load16 (mat4mult junk m A B Mout) Mout = spec_product (load16 m A) (load16 m B))
    /\ load16 (mat4mult junk m A B A) A = load16 (mat4mult junk' m A B fresh) fresh
    /\ load16 (mat4mult junk m A B B) B = load16 (mat4mult junk' m A B fresh) fresh
    /\ load16 (mat4mult junk m A A A) A = load16 (mat4mult junk' m A A fresh) fresh
    /\ (forall (m' : mem F) (Mout : addr),
           load16 m A = load16 m' A ->
           load16 m B = load16 m' B ->
           load16 (mat4mult junk m A B Mout) Mout
           = load16 (mat4mult junk' m' A B Mout) Mout)
    /\ (forall (m' : mem F) (M : addr) (s x y z w : F),
           load16 (mat4identity m M) M = load16 (mat4identity m' M) M
           /\ load16 (mat4rotx m M s) M = load16 (mat4rotx m' M s) M
           /\ load16 (mat4roty m M s) M = load16 (mat4roty m' M s) M
           /\ load16 (mat4rotz m M s) M = load16 (mat4rotz m' M s) M
           /\ load16 (mat4scale m M s) M = load16 (mat4scale m' M s) M
           /\ load16 (mat4translate m M x y z) M = load16 (mat4translate m' M x y z) M
           /\ load16 (mat4perspective m M x y z w) M
              = load16 (mat4perspective m' M x y z w) M).
Proof.
  intros F Ar Tr junk junk' m A B fresh.
  split; [intros Mout; apply mat4mult_load|].
  split; [now rewrite !mat4mult_load|].
  split; [now rewrite !mat4mult_load|].
  split; [now rewrite !mat4mult_load|].
  split; [intros m' Mout H1 H2; now apply mat4mult_inputs_only|].
  intros m' M s x y z w.
  split; [now rewrite !mat4identity_load|].
  split; [now rewrite !mat4rotx_load|].
  split; [now rewrite !mat4roty_load|].
  split; [now rewrite !mat4rotz_load|].
  split; [now rewrite !mat4scale_load|].
  split; [now rewrite !mat4translate_load|].
  now rewrite !mat4perspective_load.
Qed.

(** C3.  [mat4scale(M, factor)] leaves [factor] at indices 0, 5, 10 and 15
    and zero at the twelve other indices; index 15 holds the factor, not
    one (in exact arithmetic a factor 2 gives 2 there). *)
Theorem mat4scale_diagonal :
  forall (F : Type) (Ar : Arith F) (m : mem F) (M : addr) (factor : F),
    load16 (mat4scale m M factor) M
    = [factor; of_int 0; of_int 0; of_int 0;
       of_int 0; factor; of_int 0; of_int 0;
       of_int 0; of_int 0; factor; of_int 0;
       of_int 0; of_int 0; of_int 0; factor]
    /\ rd (mat4scale m M factor) M 15 = factor
    /\ (forall (mr : mem R) (Mr : addr),
           rd (mat4scale mr Mr 2%R) Mr 15 = 2%R
           /\ (1 < rd (mat4scale mr Mr 2%R) Mr 15)%R).
Proof.
  intros F Ar m M factor. split; [apply mat4scale_load|]. split.
  - unfold mat4scale. cbv zeta. apply rd_wr_same.
  - intros mr Mr. unfold mat4scale. cbv zeta. rewrite rd_wr_same. split; [reflexivity | lra].
Qed.

(** C5.  [mat4rotx], [mat4roty] and [mat4rotz] leave the identity with
    the rotation block of their axis: rotX has cos, sin, -sin, cos at
    indices 5, 6, 9, 10; rotY has cos, -sin, sin, cos at 0, 2, 8, 10; rotZ
    has cos, sin, -sin, cos at 0, 1, 4, 5. *)
Theorem mat4rot_blocks :
  forall (F : Type) (Ar : Arith F) (Tr : Trig F) (m : mem F) (M : addr) (angle : F),
    load16 (mat4rotx m M angle) M
    = [of_int 1; of_int 0; of_int 0; of_int 0;
       of_int 0; fcos angle; fsin angle; of_int 0;
       of_int 0; fneg (fsin angle); fcos angle; of_int 0;
       of_int 0; of_int 0; of_int 0; of_int 1]
    /\ load16 (mat4roty m M angle) M
       = [fcos angle; of_int 0; fneg (fsin angle); of_int 0;
          of_int 0; of_int 1; of_int 0; of_int 0;
          fsin angle; of_int 0; fcos angle; of_int 0;
          of_int 0; of_int 0; of_int 0; of_int 1]
    /\ load16 (mat4rotz m M angle) M
       = [fcos angle; fsin angle; of_int 0; of_int 0;
          fneg (fsin angle); fcos angle; of_int 0; of_int 0;
          of_int 0; of_int 0; of_int 1; of_int 0;
          of_int 0; of_int 0; of_int 0; of_int 1].
Proof.
  intros F Ar Tr m M angle.
  split; [apply mat4rotx_load|]. split; [apply mat4roty_load | apply mat4rotz_load].
Qed.

(** C6.  [mat4translate(M, x, y, z)] leaves the identity with [x], [y]
    and [z] at indices 12, 13 and 14: the first twelve elements and the
    last are those of the identity. *)
Theorem mat4translate_last_column :
  forall (F : Type) (Ar : Arith F) (m : mem F) (M : addr) (x y z : F),
    load16 (mat4translate m M x y z) M
    = [of_int 1; of_int 0; of_int 0; of_int 0;
       of_int 0; of_int 1; of_int 0; of_int 0;
       of_int 0; of_int 0; of_int 1; of_int 0;
       x; y; z; of_int 1]
    /\ firstn 12 (load16 (mat4translate m M x y z) M)
       = firstn 12 (load16 (mat4identity m M) M)
    /\ rd (mat4translate m M x y z) M 12 = x
    /\ rd (mat4translate m M x y z) M 13 = y
    /\ rd (mat4translate m M x y z) M 14 = z
    /\ rd (mat4translate m M x y z) M 15 = rd (mat4identity m M) M 15.
Proof.
  intros F Ar m M x y z.
  split; [apply mat4translate_load|].
  split; [now rewrite mat4translate_load, mat4identity_load|].
  unfold mat4translate. cbv zeta.
  split; [now rewrite ?rd_wr_base|].
  split; [now rewrite ?rd_wr_base|].
  split; now rewrite ?rd_wr_base.
Qed.

(** C10.  [mat4scale] with factor one leaves exactly what [mat4identity]
    leaves: the same sixteen elements, and the same memory. *)
Theorem mat4scale_one_is_identity :
  forall (F : Type) (Ar : Arith F) (m : mem F) (M : addr),
    load16 (mat4scale m M (of_int 1)) M = load16 (mat4identity m M) M
    /\ (forall a : addr, mat4scale m M (of_int 1) a = mat4identity m M a).
Proof.
  intros F Ar m M.
  assert (Hl : load16 (mat4scale m M (of_int 1)) M = load16 (mat4identity m M) M)
    by now rewrite mat4scale_load, mat4identity_load.
  split; [exact Hl|].
  apply mem_eq_split with (M := M); [exact Hl|].
  intros a Ha. unfold mat4scale. cbv zeta.
  rewrite ?wr_outside by (unfold within16 in Ha; lia). reflexivity.
Qed.

(** ** Claims in exact arithmetic *)

Section Exact.
Local Open Scope R_scope.

(** Evaluate a product of explicitly given matrices down to real-number
    expressions, keeping memory reads and the trigonometric calls as atoms. *)
Ltac product_entries :=
  cbv -[Rplus Rmult Rminus Ropp Rdiv Rinv cos sin tan IZR rd PI].

(** Associativity of the product, on matrices read from memory. *)
Lemma spec_product_assoc (m : mem R) (A B C : addr) :
  spec_product (spec_product (load16 m A) (load16 m B)) (load16 m C)
  = spec_product (load16 m A) (spec_product (load16 m B) (load16 m C)).
Proof.
  product_entries.
  repeat (apply cons_eq; [ring|]). reflexivity.
Qed.

(** The identity is neutral for the product on both sides. *)
Lemma spec_product_identity (m : mem R) (A : addr) :
  spec_product identity_elems (load16 m A) = load16 m A
  /\ spec_product (load16 m A) identity_elems = load16 m A.
Proof.
  split; product_entries; repeat (apply cons_eq; [ring|]); reflexivity.
Qed.

(** In exact arithmetic the identity written by [mat4identity] is neutral
    for [mat4mult] on either side, for every matrix. *)
Lemma mat4mult_identity_exact (junk : local R) (m : mem R) (I M Out : addr) :
  disjoint16 I M ->
  load16 (mat4mult junk (mat4identity m I) I M Out) Out = load16 m M
  /\ load16 (mat4mult junk (mat4identity m I) M I Out) Out = load16 m M.
Proof.
  intros Hd.
  rewrite !mat4mult_load, mat4identity_load, (mat4identity_frame m Hd).
  apply spec_product_identity.
Qed.

Lemma rotz_inverse_entries (t : R) :
  spec_product
    [cos t; sin t; 0; 0; - sin t; cos t; 0; 0; 0; 0; 1; 0; 0; 0; 0; 1]
    [cos (- t); sin (- t); 0; 0; - sin (- t); cos (- t); 0; 0; 0; 0; 1; 0; 0; 0; 0; 1]
  = [1; 0; 0; 0; 0; 1; 0; 0; 0; 0; 1; 0; 0; 0; 0; 1].
Proof.
  rewrite cos_neg, sin_neg.
  pose proof (sin2_cos2 t) as H. unfold Rsqr in H.
  product_entries.
  repeat (apply cons_eq; [nra|]). reflexivity.
Qed.

Lemma roty_inverse_entries (t : R) :
  spec_product
    [cos t; 0; - sin t; 0; 0; 1; 0; 0; sin t; 0; cos t; 0; 0; 0; 0; 1]
    [cos (- t); 0; - sin (- t); 0; 0; 1; 0; 0; sin (- t); 0; cos (- t); 0; 0; 0; 0; 1]
  = [1; 0; 0; 0; 0; 1; 0; 0; 0; 0; 1; 0; 0; 0; 0; 1].
Proof.
  rewrite cos_neg, sin_neg.
  pose proof (sin2_cos2 t) as H. unfold Rsqr in H.
  product_entries.
  repeat (apply cons_eq; [nra|]). reflexivity.
Qed.

Lemma rotx_inverse_entries (t : R) :
  spec_product
    [1; 0; 0; 0; 0; cos t; sin t; 0; 0; - sin t; cos t; 0; 0; 0; 0; 1]
    [1; 0; 0; 0; 0; cos (- t); sin (- t); 0; 0; - sin (- t); cos (- t); 0; 0; 0; 0; 1]
  = [1; 0; 0; 0; 0; 1; 0; 0; 0; 0; 1; 0; 0; 0; 0; 1].
Proof.
  rewrite cos_neg, sin_neg.
  pose proof (sin2_cos2 t) as H. unfold Rsqr in H.
  product_entries.
  repeat (apply cons_eq; [nra|]). reflexivity.
Qed.
End Exact.

Section ExactClaims.
Local Open Scope R_scope.

(** C2.  With [f = 1 / tan (fov / 2)], [mat4perspective] leaves [f / aspect]
    at index 0, [f] at 5, [-(zFar+zNear)/(zFar-zNear)] at 10, [-1] at 11,
    [-(2*zFar*zNear)/(zFar-zNear)] at 14, [0] at 15 and the identity's zeros
    elsewhere; under the stated preconditions none of the three divisors is
    zero.  For [fov = PI/2], [aspect = 1], [zNear = 0.1], [zFar = 100] the
    elements at 0, 5, 11, 15 are 1, 1, -1, 0 and those at 10 and 14 are
    within [1e-4] of -1.002002 and -0.2002002. *)
Theorem mat4perspective_formula :
  (forall (m : mem R) (M : addr) (fov aspect zNear zFar : R),
      zFar <> zNear -> (0 < fov < PI)%R -> (0 < aspect)%R ->
      let f := (1 / tan (fov / 2))%R in
      load16 (mat4perspective m M fov aspect zNear zFar) M
      = [f / aspect; 0; 0; 0;
         0; f; 0; 0;
         0; 0; - ((zFar + zNear) / (zFar - zNear)); -1;
         0; 0; - ((2 * zFar * zNear) / (zFar - zNear)); 0]%R
      /\ tan (fov / 2) <> 0%R /\ aspect <> 0%R /\ (zFar - zNear)%R <> 0%R)
  /\ (forall (m : mem R) (M : addr),
         let P := load16 (mat4perspective m M (PI / 2) 1 0.1 100) M in
         elt P 0 = 1%R /\ elt P 5 = 1%R
         /\ close 1e-4 (elt P 10) (-1.002002)
         /\ elt P 11 = (-1)%R
         /\ close 1e-4 (elt P 14) (-0.2002002)
         /\ elt P 15 = 0%R).
Proof.
  split.
  - intros m M fov aspect zNear zFar Hz Hfov Hasp f.
    split; [subst f; rewrite mat4perspective_load; reflexivity|].
    split; [|split; lra].
    apply Rgt_not_eq. apply tan_gt_0; lra.
  - intros m M P. subst P. rewrite mat4perspective_load.
    cbv [elt nth Z.to_nat Pos.to_nat Pos.iter_op Nat.add].
    cbn [of_int fadd fsub fmul fdiv fneg ftan arithR trigR].
    replace (PI / 2 / 2)%R with (PI / 4)%R by field.
    rewrite tan_PI4.
    split; [field|]. split; [field|].
    split; [unfold close; apply Rabs_def1; lra|].
    split; [reflexivity|].
    split; [unfold close; apply Rabs_def1; lra | reflexivity].
Qed.

(** X14.  In exact arithmetic, the product of the matrix written by
    [mat4rotz] for an angle and the one written for the opposite angle is
    the identity, element by element and for every angle; likewise for
    [mat4roty] and [mat4rotx]. *)
Theorem rotation_inverse_exact :
  forall (junk : local R) (m : mem R) (Ra Rb Out : addr) (theta : R),
    disjoint16 Ra Rb ->
    load16 (mat4mult junk (mat4rotz (mat4rotz m Ra theta) Rb (- theta)%R) Ra Rb Out) Out
    = identity_elems
    /\ load16 (mat4mult junk (mat4roty (mat4roty m Ra theta) Rb (- theta)%R) Ra Rb Out) Out
       = identity_elems
    /\ load16 (mat4mult junk (mat4rotx (mat4rotx m Ra theta) Rb (- theta)%R) Ra Rb Out) Out
       = identity_elems.
Proof.
  intros junk m Ra Rb Out theta Hd.
  assert (Hd' : disjoint16 Rb Ra) by (unfold disjoint16 in *; lia).
  split; [|split].
  - rewrite mat4mult_load, mat4rotz_load, (mat4rotz_frame _ _ Hd'), mat4rotz_load.
    apply rotz_inverse_entries.
  - rewrite mat4mult_load, mat4roty_load, (mat4roty_frame _ _ Hd'), mat4roty_load.
    apply roty_inverse_entries.
  - rewrite mat4mult_load, mat4rotx_load, (mat4rotx_frame _ _ Hd'), mat4rotx_load.
    apply rotx_inverse_entries.
Qed.

(** C8.  In exact arithmetic [mat4mult] is associative: computing [A·B]
    into a temporary and multiplying it by [C] leaves the same sixteen
    elements as computing [B·C] into a temporary and multiplying [A] by it. *)
Theorem mat4mult_assoc :
  forall (j1 j2 j3 j4 : local R) (m : mem R) (A B C T1 T2 O1 O2 : addr),
    disjoint16 T1 C -> disjoint16 T2 A ->
    load16 (mat4mult j2 (mat4mult j1 m A B T1) T1 C O1) O1
    = load16 (mat4mult j4 (mat4mult j3 m B C T2) A T2 O2) O2.
Proof.
  intros j1 j2 j3 j4 m A B C T1 T2 O1 O2 H1 H2.
  rewrite (mat4mult_load j2), (mat4mult_load j4).
  rewrite !mat4mult_load, (mat4mult_frame j1 m A B H1), (mat4mult_frame j3 m B C H2).
  apply spec_product_assoc.
Qed.
End ExactClaims.

(** ** Claims in binary32 arithmetic *)

Import Binary32.

Section Float32Facts.
Local Open Scope Z_scope.

Lemma of_Z_one : of_Z 1 = S754_finite false 8388608 (-23).
Proof. reflexivity. Qed.

Lemma of_Z_zero : of_Z 0 = S754_zero false.
Proof. reflexivity. Qed.

Lemma digits_shift23 (m : positive) :
  Zpos (digits2_pos (Pos.mul 8388608 m)) = Zpos (digits2_pos m) + 23.
Proof. cbn [Pos.mul digits2_pos]. lia. Qed.

Lemma shr_shift23 (m : positive) :
  iter_pos shr_1 23 {| shr_m := Zpos (Pos.mul 8388608 m); shr_r := false; shr_s := false |}
  = {| shr_m := Zpos m; shr_r := false; shr_s := false |}.
Proof. reflexivity. Qed.

(** Rounding [m * 2^23 * 2^(e-23)] gives back the binary32 value [m * 2^e]. *)
Lemma round_aux_one (s : bool) (m : positive) (e : Z) :
  bounded prec emax m e = true ->
  binary_round_aux prec emax s (Zpos (Pos.mul 8388608 m)) (-23 + e) loc_Exact
  = S754_finite s m e.
Proof.
  intros Hb. unfold bounded, canonical_mantissa in Hb.
  apply andb_prop in Hb. destruct Hb as [Hc He].
  apply Z.eqb_eq in Hc.
  unfold binary_round_aux.
  unfold shr_fexp at 1.
  cbn [Zdigits2]. rewrite digits_shift23.
  replace (Z.pos (digits2_pos m) + 23 + (-23 + e)) with (Z.pos (digits2_pos m) + e) by lia.
  rewrite Hc.
  replace (e - (-23 + e)) with 23 by lia.
  unfold shr_record_of_loc, shr. rewrite shr_shift23.
  cbn [shr_m loc_of_shr_record round_nearest_even].
  replace (-23 + e + 23) with e by lia.
  unfold shr_fexp. cbn [Zdigits2]. rewrite Hc, Z.sub_diag.
  cbn [shr shr_record_of_loc shr_m]. rewrite He. reflexivity.
Qed.

Lemma mul_one_l (x : float32) :
  finite32 x = true -> SFmul prec emax (of_Z 1) x = x.
Proof.
  unfold finite32, valid32. intros H. apply andb_prop in H. destruct H as [Hv Hf].
  rewrite of_Z_one.
  destruct x as [s|s| |s m e]; try discriminate; cbn [SFmul xorb]; [reflexivity|].
  apply round_aux_one. exact Hv.
Qed.

Lemma mul_one_r (x : float32) :
  finite32 x = true -> SFmul prec emax x (of_Z 1) = x.
Proof.
  unfold finite32, valid32. intros H. apply andb_prop in H. destruct H as [Hv Hf].
  rewrite of_Z_one.
  destruct x as [s|s| |s m e]; try discriminate; cbn [SFmul]; rewrite xorb_false_r;
    [reflexivity|].
  rewrite Pos.mul_comm, Z.add_comm. apply round_aux_one. exact Hv.
Qed.

Lemma mul_zero_l (y : float32) :
  is_finite y = true -> exists s, SFmul prec emax (of_Z 0) y = S754_zero s.
Proof.
  rewrite of_Z_zero. destruct y as [s|s| |s m e]; try discriminate; intros _;
    cbn [SFmul]; eexists; reflexivity.
Qed.

Lemma mul_zero_r (y : float32) :
  is_finite y = true -> exists s, SFmul prec emax y (of_Z 0) = S754_zero s.
Proof.
  rewrite of_Z_zero. destruct y as [s|s| |s m e]; try discriminate; intros _;
    cbn [SFmul]; eexists; reflexivity.
Qed.

Lemma feq_refl_finite (x : float32) : is_finite x = true -> feq x x = true.
Proof.
  destruct x as [s|s| |s m e]; try discriminate; intros _; [reflexivity|].
  unfold feq, SFeqb, SFcompare.
  destruct s; rewrite Z.compare_refl; fold (Pos.compare m m); rewrite Pos.compare_refl;
    reflexivity.
Qed.

(** Adding a zero of either sign, on either side, keeps the number. *)
Lemma feq_add_zero_r (x r : float32) (s : bool) :
  is_finite x = true -> feq r x = true ->
  feq (SFadd prec emax r (S754_zero s)) x = true.
Proof.
  destruct x as [sx|sx| |sx mx ex]; try discriminate; intros _;
    destruct r as [sr|sr| |sr mr er]; intros H;
    try solve [discriminate H | destruct sr; discriminate H | destruct sx; discriminate H];
    try exact H.
  destruct sr, s; reflexivity.
Qed.

Lemma feq_add_zero_l (x r : float32) (s : bool) :
  is_finite x = true -> feq r x = true ->
  feq (SFadd prec emax (S754_zero s) r) x = true.
Proof.
  destruct x as [sx|sx| |sx mx ex]; try discriminate; intros _;
    destruct r as [sr|sr| |sr mr er]; intros H;
    try solve [discriminate H | destruct sr; discriminate H | destruct sx; discriminate H];
    try exact H.
  destruct sr, s; reflexivity.
Qed.

Lemma add_zero_zero (s t : bool) :
  exists u, SFadd prec emax (S754_zero s) (S754_zero t) = S754_zero u.
Proof. destruct s, t; eexists; reflexivity. Qed.

Lemma finite32_is_finite (x : float32) : finite32 x = true -> is_finite x = true.
Proof. unfold finite32. intros H. now apply andb_prop in H. Qed.

(** A sum of four products of which one is [1 * x] or [x * 1] and the three
    others have a factor zero compares equal to [x]. *)
Ltac neutral_entry :=
  cbn [fadd fmul of_int arith32];
  rewrite ?mul_one_l, ?mul_one_r by assumption;
  repeat match goal with
    | |- context [SFmul prec emax (of_Z 0) ?y] =>
        let s := fresh "s" in
        let E := fresh "E" in
        destruct (mul_zero_l y) as [s E];
        [apply finite32_is_finite; assumption | rewrite E; clear E]
    | |- context [SFmul prec emax ?y (of_Z 0)] =>
        let s := fresh "s" in
        let E := fresh "E" in
        destruct (mul_zero_r y) as [s E];
        [apply finite32_is_finite; assumption | rewrite E; clear E]
    | |- context [SFadd prec emax (S754_zero ?s) (S754_zero ?t)] =>
        let u := fresh "u" in
        let E := fresh "E" in
        destruct (add_zero_zero s t) as [u E]; rewrite E; clear E
    end;
  repeat first
    [ apply feq_add_zero_r; [apply finite32_is_finite; assumption|]
    | apply feq_add_zero_l; [apply finite32_is_finite; assumption|]
    | apply feq_refl_finite; apply finite32_is_finite; assumption ].

Lemma identity_neutral_entries (m : mem float32) (M : addr) :
  Forall (fun x => finite32 x = true) (load16 m M) ->
  Forall2 (fun r x => feq r x = true)
    (spec_product identity_elems (load16 m M)) (load16 m M)
  /\ Forall2 (fun r x => feq r x = true)
       (spec_product (load16 m M) identity_elems) (load16 m M).
Proof.
  unfold load16, idx16. cbn [map].
  generalize (rd m M 0), (rd m M 1), (rd m M 2), (rd m M 3), (rd m M 4), (rd m M 5),
    (rd m M 6), (rd m M 7), (rd m M 8), (rd m M 9), (rd m M 10), (rd m M 11),
    (rd m M 12), (rd m M 13), (rd m M 14), (rd m M 15).
  intros x0 x1 x2 x3 x4 x5 x6 x7 x8 x9 x10 x11 x12 x13 x14 x15 H.
  repeat match goal with
    | H : Forall _ (_ :: _) |- _ => inversion H; clear H; subst
    | H : Forall _ [] |- _ => clear H
    end.
  split; cbv -[fadd fmul of_int feq arith32];
    repeat (constructor; [neutral_entry|]); constructor.
Qed.

(** *** Subtraction of equal operands, division by zero *)

Lemma feq_finite_inv (s1 s2 : bool) (m1 m2 : positive) (e1 e2 : Z) :
  feq (S754_finite s1 m1 e1) (S754_finite s2 m2 e2) = true ->
  s1 = s2 /\ m1 = m2 /\ e1 = e2.
Proof.
  unfold feq, SFeqb, SFcompare.
  destruct s1, s2; try discriminate;
    destruct (Z.compare_spec e1 e2) as [He|He|He]; try discriminate;
    fold (Pos.compare m1 m2); destruct (Pos.compare_spec m1 m2) as [Hm|Hm|Hm];
    try discriminate; intros _; subst; repeat split.
Qed.

(** [y - z] is a zero or a NaN whenever [y == z]. *)
Lemma sub_of_equal (y z : float32) :
  feq y z = true ->
  match SFsub prec emax y z with
  | S754_zero _ | S754_nan => True
  | _ => False
  end.
Proof.
  destruct y as [sy|sy| |sy my ey], z as [sz|sz| |sz mz ez]; intros H;
    try solve [discriminate H | destruct sy; discriminate H | destruct sz; discriminate H
              | destruct sy, sz; discriminate H].
  - destruct sy, sz; exact I.
  - destruct sy, sz; try discriminate H; exact I.
  - apply feq_finite_inv in H. destruct H as (-> & -> & ->).
    cbn [SFsub]. rewrite Z.sub_diag. exact I.
Qed.

(** Dividing by a zero or a NaN never gives a finite value. *)
Lemma div_by_zero_or_nan (x d : float32) :
  match d with S754_zero _ | S754_nan => True | _ => False end ->
  non_finite (SFdiv prec emax x d) = true.
Proof.
  destruct d as [sd|sd| |sd md ed]; intros H; try contradiction;
    destruct x as [sx|sx| |sx mx ex]; reflexivity.
Qed.

Lemma non_finite_opp (x : float32) : non_finite (SFopp x) = non_finite x.
Proof. destruct x; reflexivity. Qed.

(** A value that compares equal to zero is a zero. *)
Lemma feq_zero_inv (d : float32) :
  feq d (of_Z 0) = true ->
  match d with S754_zero _ | S754_nan => True | _ => False end.
Proof.
  destruct d as [sd|sd| |sd md ed]; intros H;
    try solve [exact I | discriminate H | destruct sd; discriminate H].
Qed.
End Float32Facts.

Section Float32Claims.
Local Open Scope Z_scope.

(** Without the temporary, a call whose output is an operand reads elements
    it has already overwritten: on the all-ones matrix multiplied by itself
    in place the result differs from the product, while on three distinct
    buffers both routines agree. *)
Lemma direct_write_corrupts :
  load16 (mult_without_temp ones 0 0 0) 0 <> load16 (mat4mult zeros ones 0 0 0) 0
  /\ load16 (mult_without_temp ones 0 16 32) 32 = load16 (mat4mult zeros ones 0 16 32) 32.
Proof.
  split; [|vm_compute; reflexivity].
  intros H. apply (f_equal (fun l => elt l 4)) in H. vm_compute in H. discriminate H.
Qed.

(** The identity times a matrix holding [-0.0f] returns [+0.0f] in its
    place: the two compare equal but are not the same value. *)
Lemma identity_product_drops_zero_sign :
  elt (load16 mem_negzero 16) 0 = S754_zero true
  /\ elt (load16 (mat4mult zeros (mat4identity mem_negzero 0) 0 16 32) 32) 0
     = S754_zero false
  /\ feq16 (load16 (mat4mult zeros (mat4identity mem_negzero 0) 0 16 32) 32)
           (load16 mem_negzero 16).
Proof.
  split; [vm_compute; reflexivity|]. split; [vm_compute; reflexivity|].
  vm_compute. repeat constructor.
Qed.

(** The arithmetic of the model on values known from the machine:
    [1.0f / 3.0f] is [0x1.555556p-2f] and [1.0f / 10.0f] is the [float]
    nearest to 0.1. *)
Lemma binary32_quotients :
  SFdiv prec emax (of_Z 1) (of_Z 3) = S754_finite false 11184811 (-25)
  /\ SFdiv prec emax (of_Z 1) (of_Z 10) = f0_1
  /\ valid32 f0_1 = true.
Proof. repeat split; vm_compute; reflexivity. Qed.

(** The scenario of C2 in binary32, for the four elements that do not go
    through [tan]: with [zNear = 0.1f] and [zFar = 100.0f], whatever [vfov]
    and [aspect] are, elements 11 and 15 are -1 and 0 and elements 10 and
    14 are within [1e-4] of -1.002002 and -0.2002002. *)
Lemma perspective_scenario_binary32 (Tr : Trig float32) (m : mem float32) (M : addr)
    (vfov aspect : float32) :
  let P := load16 (mat4perspective m M vfov aspect f0_1 (of_Z 100)) M in
  close 1e-4 (B2R (elt P 10)) (-1.002002)
  /\ elt P 11 = of_Z (-1)
  /\ close 1e-4 (B2R (elt P 14)) (-0.2002002)
  /\ elt P 15 = of_Z 0.
Proof.
  intros P. subst P. rewrite mat4perspective_load.
  cbv [elt nth Z.to_nat Pos.to_nat Pos.iter_op Nat.add].
  assert (E10 : fneg (fdiv (fadd (of_Z 100) f0_1) (fsub (of_Z 100) f0_1))
                = S754_finite true 8405402 (-23)) by (vm_compute; reflexivity).
  assert (E14 : fneg (fdiv (fmul (fmul (of_int 2) (of_Z 100)) f0_1) (fsub (of_Z 100) f0_1))
                = S754_finite true 13435208 (-26)) by (vm_compute; reflexivity).
  rewrite E10, E14. unfold B2R, close.
  change (2 ^ 23)%positive with 8388608%positive.
  change (2 ^ 26)%positive with 67108864%positive.
  split; [apply Rabs_def1; lra|]. split; [reflexivity|].
  split; [apply Rabs_def1; lra | reflexivity].
Qed.

(** C4, as stated, fails in binary32: with [+infinity] in element 1 of [M],
    element 0 of [identity·M] is [1*1 + 0*infinity + 0*0 + 0*0], a NaN,
    where [M] holds 1.  So the product does not compare equal to [M], and
    the identity is not neutral for every matrix. *)
Lemma identity_not_neutral_for_infinity :
  elt (load16 mem_inf 16) 0 = of_Z 1
  /\ elt (load16 mem_inf 16) 1 = pinf
  /\ elt (load16 (mat4mult zeros (mat4identity mem_inf 0) 0 16 32) 32) 0 = S754_nan
  /\ ~ feq16 (load16 (mat4mult zeros (mat4identity mem_inf 0) 0 16 32) 32)
             (load16 mem_inf 16)
  /\ ~ (forall (junk : local float32) (m : mem float32) (I M Out : addr),
           disjoint16 I M ->
           feq16 (load16 (mat4mult junk (mat4identity m I) I M Out) Out) (load16 m M)).
Proof.
  assert (Hne : ~ feq16 (load16 (mat4mult zeros (mat4identity mem_inf 0) 0 16 32) 32)
                        (load16 mem_inf 16)).
  { intros H. inversion H as [|r x lr lx Hrx _]. vm_compute in Hrx. discriminate Hrx. }
  split; [vm_compute; reflexivity|].
  split; [vm_compute; reflexivity|].
  split; [vm_compute; reflexivity|].
  split; [exact Hne|].
  intros Hall. apply Hne, Hall. unfold disjoint16. lia.
Qed.

(** C4, amended.  For a matrix [M] whose sixteen elements are finite
    [float] values, [identity·M] and [M·identity] as computed by [mat4mult]
    compare equal to [M] element by element; and the product of
    [translate(1,2,3)] with the identity is [translate(1,2,3)], value for
    value. *)
Theorem mat4mult_identity_finite :
  forall (junk : local float32) (m : mem float32) (I M Out : addr),
    disjoint16 I M ->
    (Forall (fun x => finite32 x = true) (load16 m M) ->
     feq16 (load16 (mat4mult junk (mat4identity m I) I M Out) Out) (load16 m M)
     /\ feq16 (load16 (mat4mult junk (mat4identity m I) M I Out) Out) (load16 m M))
    /\ (let mT := mat4translate m M (of_Z 1) (of_Z 2) (of_Z 3) in
        load16 (mat4mult junk (mat4identity mT I) M I Out) Out = load16 mT M).
Proof.
  intros junk m I M Out Hd. split.
  - intros Hfin.
    rewrite !mat4mult_load, mat4identity_load, (mat4identity_frame m Hd).
    now apply identity_neutral_entries.
  - intros mT.
    rewrite mat4mult_load, mat4identity_load, (mat4identity_frame mT Hd).
    subst mT. rewrite mat4translate_load. vm_compute. reflexivity.
Qed.

(** C9.  [mat4perspective] checks nothing: for every input, degenerate or
    not, it leaves the sixteen elements given by its formulas, and the seven
    other routines likewise return sixteen elements.  When [zFar == zNear]
    the elements at indices 10 and 14 are quotients by [zFar - zNear], a
    zero or a NaN, and are therefore infinite or NaN; a zero [aspect] does
    the same to element 0, and a zero tangent to element 5. *)
Theorem mat4perspective_unchecked :
  forall (Tr : Trig float32) (junk : local float32) (m : mem float32) (M M1 M2 : addr)
         (vfov aspect zNear zFar : float32),
    let P := load16 (mat4perspective m M vfov aspect zNear zFar) M in
    let f := fdiv (of_Z 1) (ftan (fdiv vfov (of_Z 2))) in
    P = [fdiv f aspect; of_Z 0; of_Z 0; of_Z 0;
         of_Z 0; f; of_Z 0; of_Z 0;
         of_Z 0; of_Z 0; fneg (fdiv (fadd zFar zNear) (fsub zFar zNear)); of_Z (-1);
         of_Z 0; of_Z 0;
         fneg (fdiv (fmul (fmul (of_Z 2) zFar) zNear) (fsub zFar zNear)); of_Z 0]
    /\ length P = 16%nat
    /\ length (load16 (mat4mult junk m M1 M2 M) M) = 16%nat
    /\ length (load16 (mat4identity m M) M) = 16%nat
    /\ length (load16 (mat4rotx m M vfov) M) = 16%nat
    /\ length (load16 (mat4roty m M vfov) M) = 16%nat
    /\ length (load16 (mat4rotz m M vfov) M) = 16%nat
    /\ length (load16 (mat4scale m M vfov) M) = 16%nat
    /\ length (load16 (mat4translate m M vfov aspect zNear) M) = 16%nat
    /\ (feq zFar zNear = true ->
        non_finite (elt P 10) = true /\ non_finite (elt P 14) = true)
    /\ (feq aspect (of_Z 0) = true -> non_finite (elt P 0) = true)
    /\ (feq (ftan (fdiv vfov (of_Z 2))) (of_Z 0) = true ->
        non_finite (elt P 5) = true).
Proof.
  intros Tr junk m M M1 M2 vfov aspect zNear zFar P f.
  split; [subst P f; rewrite mat4perspective_load; reflexivity|].
  do 8 (split; [reflexivity|]).
  subst P f. rewrite mat4perspective_load.
  cbv [elt nth Z.to_nat Pos.to_nat Pos.iter_op Nat.add].
  cbn [fadd fsub fmul fdiv fneg of_int arith32].
  split; [|split].
  - intros Heq. rewrite !non_finite_opp.
    split; apply div_by_zero_or_nan, sub_of_equal, Heq.
  - intros Heq. apply div_by_zero_or_nan, feq_zero_inv, Heq.
  - intros Heq. apply div_by_zero_or_nan, feq_zero_inv, Heq.
Qed.
End Float32Claims.

(** ** The theorems at concrete inputs *)

Section Instances.
Local Open Scope Z_scope.

(** C1 on two memories that agree on the operands at 0 and 16 and differ at
    the output buffer at 32. *)
Lemma mat4mult_alias_safe_witness :
  load16 (mat4mult zeros ones 0 16 32) 32
  = load16 (mat4mult ones (wr ones 32 8 pinf) 0 16 32) 32.
Proof.
  apply (proj1 (proj2 (proj2 (proj2 (proj2
           (@mat4mult_alias_safe float32 arith32 some_libm zeros ones ones 0 16 0))))));
    reflexivity.
Defined.

(** C2 at the projection of the specification's scenario. *)
Lemma mat4perspective_formula_witness :
  (load16 (mat4perspective (fun _ => 0%R) 0 (PI / 2)%R 1%R 0.1%R 100%R) 0
   = [1 / tan (PI / 2 / 2) / 1; 0; 0; 0;
      0; 1 / tan (PI / 2 / 2); 0; 0;
      0; 0; - ((100 + 0.1) / (100 - 0.1)); -1;
      0; 0; - ((2 * 100 * 0.1) / (100 - 0.1)); 0]%R)
  /\ tan (PI / 2 / 2) <> 0%R /\ 1%R <> 0%R /\ (100 - 0.1)%R <> 0%R.
Proof.
  apply (proj1 mat4perspective_formula (fun _ => 0%R) 0 (PI / 2)%R 1%R 0.1%R 100%R).
  - lra.
  - pose proof PI_RGT_0. lra.
  - lra.
Defined.

(** C4, amended, on [translate(1,2,3)] stored at 16. *)
Lemma mat4mult_identity_finite_witness :
  feq16 (load16 (mat4mult zeros (mat4identity mem_translate 0) 0 16 32) 32)
        (load16 mem_translate 16)
  /\ feq16 (load16 (mat4mult zeros (mat4identity mem_translate 0) 16 0 32) 32)
          (load16 mem_translate 16).
Proof.
  assert (Hd : disjoint16 0 16) by (unfold disjoint16; lia).
  apply (proj1 (@mat4mult_identity_finite zeros mem_translate 0 16 32 Hd)).
  vm_compute. repeat constructor.
Defined.

(** X14 at the angle [PI/4], with the two rotations at 0 and 16. *)
Lemma rotation_inverse_exact_witness :
  load16 (mat4mult (fun _ => 0%R)
            (mat4rotz (mat4rotz (fun _ => 0%R) 0 (PI / 4)%R) 16 (- (PI / 4))%R)
            0 16 32) 32
  = identity_elems.
Proof.
  assert (Hd : disjoint16 0 16) by (unfold disjoint16; lia).
  exact (proj1 (@rotation_inverse_exact (fun _ => 0%R) (fun _ => 0%R) 0 16 32
                  (PI / 4)%R Hd)).
Defined.

(** C8 on a memory holding its own addresses, with the three operands at
    0, 16 and 32 and the temporaries at 48 and 64. *)
Lemma mat4mult_assoc_witness :
  load16 (mat4mult (fun _ => 0%R) (mat4mult (fun _ => 0%R) IZR 0 16 48) 48 32 80) 80
  = load16 (mat4mult (fun _ => 0%R) (mat4mult (fun _ => 0%R) IZR 16 32 64) 0 64 96) 96.
Proof.
  apply (@mat4mult_assoc (fun _ => 0%R) (fun _ => 0%R) (fun _ => 0%R) (fun _ => 0%R)
           IZR 0 16 32 48 64 80 96); unfold disjoint16; lia.
Defined.

(** C9 at [zNear = zFar = 100]. *)
Lemma mat4perspective_unchecked_witness :
  non_finite (elt (load16 (mat4perspective (Tr := some_libm) zeros 0
                             (of_Z 1) (of_Z 1) (of_Z 100) (of_Z 100)) 0) 10) = true
  /\ non_finite (elt (load16 (mat4perspective (Tr := some_libm) zeros 0
                               (of_Z 1) (of_Z 1) (of_Z 100) (of_Z 100)) 0) 14) = true.
Proof.
  apply (proj1 (proj2 (proj2 (proj2 (proj2 (proj2 (proj2 (proj2 (proj2 (proj2
           (@mat4perspective_unchecked some_libm zeros zeros 0 0 0
              (of_Z 1) (of_Z 1) (of_Z 100) (of_Z 100)))))))))))).
  reflexivity.
Defined.
End Instances.

Unset Implicit Arguments.

(** * Rotations and their inverses in binary32

    ** Rounding to nearest

    One addition or multiplication of finite values whose exact result has
    magnitude below 2 gives a finite value within [half_ulp] of it. *)

Section ShiftRight.
Local Open Scope Z_scope.

(** [iter_pos] is iteration. *)
Lemma iter_pos_nat (A : Type) (f : A -> A) (n : positive) (x : A) :
  iter_pos f n x = Nat.iter (Pos.to_nat n) f x.
Proof.
  revert x. induction n as [n IH|n IH|]; intros x; cbn [iter_pos].
  - rewrite !IH.
    replace (Pos.to_nat n~1) with (Pos.to_nat n + (Pos.to_nat n + 1))%nat by lia.
    rewrite !Nat.iter_add. reflexivity.
  - rewrite !IH.
    replace (Pos.to_nat n~0) with (Pos.to_nat n + Pos.to_nat n)%nat by lia.
    rewrite Nat.iter_add. reflexivity.
  - reflexivity.
Qed.

(** [shr_inv] holds before the first shift and is kept by every shift. *)
Lemma shr_inv_start (m : Z) : 0 <= m -> shr_inv m 0 (Build_shr_record m false false).
Proof.
  intros Hm. split; [exact Hm|]. exists 0.
  cbn [shr_m shr_r shr_s b2z]. rewrite Z.pow_0_r.
  split; [lia|]. split; [lia|]. split; reflexivity.
Qed.

Lemma shr_inv_step (m k : Z) (mrs : shr_record) :
  0 <= k -> shr_inv m k mrs -> shr_inv m (k + 1) (shr_1 mrs).
Proof.
  intros Hk [Hnn (t & Ht & Hr & Hs)].
  destruct mrs as [mk r s]. cbn [shr_m shr_r shr_s] in *.
  assert (Hp : 2 ^ (k + 1) = 2 * 2 ^ k) by (rewrite Z.pow_add_r by lia; lia).
  assert (Hpos : 0 < 2 ^ k) by (apply Z.pow_pos_nonneg; lia).
  assert (Hs' : (r || s = false <-> 2 ^ k * b2z r + t = 0)).
  { destruct r; cbn [orb b2z].
    - split; intros H; [discriminate | lia].
    - rewrite Z.mul_0_r, Z.add_0_l. exact Hs. }
  destruct mk as [|p|p]; [| destruct p as [p|p|] |lia]; cbn [shr_1];
    (split; [cbn [shr_m]; lia|]);
    exists (2 ^ k * b2z r + t); cbn [shr_m shr_r shr_s b2z];
    (split; [rewrite Hp; destruct r; cbn [b2z] in *; nia|]);
    (split; [destruct r; cbn [b2z]; nia | exact Hs']).
Qed.

Lemma shr_inv_iter (m : Z) (n : nat) (mrs : shr_record) (k : Z) :
  0 <= k -> shr_inv m k mrs -> shr_inv m (k + Z.of_nat n) (Nat.iter n shr_1 mrs).
Proof.
  intros Hk H. induction n as [|n IH].
  - cbn [Nat.iter]. now replace (k + Z.of_nat 0) with k by lia.
  - cbn [Nat.iter]. replace (k + Z.of_nat (S n)) with (k + Z.of_nat n + 1) by lia.
    apply shr_inv_step; [lia | exact IH].
Qed.

(** Rounding to nearest after [k] shifts is within half a unit of the
    shifted mantissa. *)
Lemma round_nearest_even_bound (m k : Z) (mrs : shr_record) :
  0 <= k -> shr_inv m k mrs ->
  let m2 := round_nearest_even (shr_m mrs) (loc_of_shr_record mrs) in
  shr_m mrs <= m2 <= shr_m mrs + 1
  /\ Z.abs (2 * (2 ^ k * m2) - 2 * m) <= 2 ^ k.
Proof.
  intros Hk [Hnn (t & Ht & Hr & Hs)] m2. subst m2.
  destruct mrs as [mk r s]. cbn [shr_m shr_r shr_s loc_of_shr_record] in *.
  assert (Hpos : 0 < 2 ^ k) by (apply Z.pow_pos_nonneg; lia).
  destruct r, s; cbn [round_nearest_even b2z] in *.
  - split; [lia|]. nia.
  - assert (t = 0) by (now apply Hs). subst t.
    destruct (Z.even mk); split; try lia; nia.
  - split; [lia|]. nia.
  - assert (t = 0) by (now apply Hs). subst t. split; [lia|]. nia.
Qed.
End ShiftRight.

Section Digits.
Local Open Scope Z_scope.

(** A mantissa of [d] binary digits lies between [2^(d-1)] and [2^d]. *)
Lemma digits2_bounds (p : positive) :
  2 ^ (Zpos (digits2_pos p) - 1) <= Zpos p < 2 ^ Zpos (digits2_pos p).
Proof.
  induction p as [p IH|p IH|]; cbn [digits2_pos].
  - rewrite Pos2Z.inj_succ.
    replace (Z.succ (Zpos (digits2_pos p)) - 1) with (Zpos (digits2_pos p) - 1 + 1) by lia.
    rewrite Z.pow_succ_r by lia.
    rewrite Z.pow_add_r by lia. lia.
  - rewrite Pos2Z.inj_succ.
    replace (Z.succ (Zpos (digits2_pos p)) - 1) with (Zpos (digits2_pos p) - 1 + 1) by lia.
    rewrite Z.pow_succ_r by lia.
    rewrite Z.pow_add_r by lia. lia.
  - cbn. lia.
Qed.

Lemma pow2_pos (k : Z) : 0 <= k -> 0 < 2 ^ k.
Proof. intros. apply Z.pow_pos_nonneg; lia. Qed.

Lemma pow2_lt_inv (a b : Z) : 0 <= a -> 0 <= b -> 2 ^ a < 2 ^ b -> a < b.
Proof. intros Ha Hb H. apply (Z.pow_lt_mono_r_iff 2); lia. Qed.

Lemma pow2_le (a b : Z) : 0 <= a <= b -> 2 ^ a <= 2 ^ b.
Proof. intros H. apply Z.pow_le_mono_r; lia. Qed.
End Digits.

(** The outcome of rounding, as an integer mantissa and an exponent. *)
Section RoundAux.
Local Open Scope Z_scope.

(** A mantissa that needs no shift is returned as it is. *)
Lemma round_aux_exact (s : bool) (m : positive) (e : Z) :
  fexp prec emax (Zpos (digits2_pos m) + e) <= e ->
  e <= emax - prec ->
  binary_round_aux prec emax s (Zpos m) e loc_Exact = S754_finite s m e.
Proof.
  intros Hf He. unfold binary_round_aux, shr_fexp. cbn [Zdigits2].
  assert (Hn : fexp prec emax (Zpos (digits2_pos m) + e) - e <= 0) by lia.
  destruct (fexp prec emax (Zpos (digits2_pos m) + e) - e) as [|p|p] eqn:En; try lia;
    cbn [shr shr_record_of_loc shr_m loc_of_shr_record round_nearest_even Zdigits2];
    rewrite En; cbn [shr shr_m];
    (destruct (Z.leb_spec e (emax - prec)); [reflexivity | lia]).
Qed.

Lemma fexp_eq (x : Z) : fexp prec emax x = Z.max (x - 24) (-149).
Proof. reflexivity. Qed.

(** A mantissa that is shifted comes back within half a unit of the new
    exponent; the result is zero or finite, as the exponent stays below
    [emax]. *)
Lemma round_aux_shift (s : bool) (m : positive) (e : Z) :
  let E := fexp prec emax (Zpos (digits2_pos m) + e) in
  e < E -> E + 1 <= emax - prec ->
  exists m2,
    val s (binary_round_aux prec emax s (Zpos m) e loc_Exact) m2 E
    /\ Z.abs (2 * (2 ^ (E - e) * m2) - 2 * Zpos m) <= 2 ^ (E - e).
Proof.
  intros E HeE HE.
  pose proof (digits2_bounds m) as Hd.
  assert (HEd : Zpos (digits2_pos m) + e - 24 <= E /\ -149 <= E)
    by (subst E; rewrite fexp_eq; lia).
  unfold binary_round_aux. unfold shr_fexp at 1. cbn [Zdigits2]. fold E.
  destruct (E - e) as [|p|p] eqn:En; try lia.
  cbn [shr shr_record_of_loc]. rewrite iter_pos_nat.
  set (mrs := Nat.iter (Pos.to_nat p) shr_1 (Build_shr_record (Zpos m) false false)).
  assert (Hinv : shr_inv (Zpos m) (Zpos p) mrs).
  { pose proof (shr_inv_iter (Zpos m) (Pos.to_nat p) _ 0 (Z.le_refl 0)
                  (shr_inv_start (Zpos m) (Pos2Z.is_nonneg m))) as H.
    rewrite positive_nat_Z in H. exact H. }
  pose proof (round_nearest_even_bound (Zpos m) (Zpos p) mrs (Pos2Z.is_nonneg p) Hinv)
    as [Hm2 Hbound].
  set (m2 := round_nearest_even (shr_m mrs) (loc_of_shr_record mrs)) in *.
  assert (Hmk : 0 <= shr_m mrs < 2 ^ 24).
  { destruct Hinv as [Hnn (t & Ht & Hr & _)]. split; [exact Hnn|].
    assert (Hpp : 0 < 2 ^ Zpos p) by (apply pow2_pos; lia).
    assert (Hle : 2 ^ Zpos (digits2_pos m) <= 2 ^ (Zpos p + 24)) by (apply pow2_le; lia).
    rewrite Z.pow_add_r in Hle by lia.
    assert (0 <= b2z (shr_r mrs)) by (destruct (shr_r mrs); cbn; lia).
    nia. }
  replace (e + Zpos p) with E by lia.
  exists m2. split; [|exact Hbound].
  assert (Hm2' : 0 <= m2 <= 2 ^ 24) by lia.
  destruct m2 as [|q|q] eqn:Em2; [| |lia].
  - unfold shr_fexp. cbn [Zdigits2]. rewrite Z.add_0_l, fexp_eq.
    destruct (Z.max (E - 24) (-149) - E) as [|p'|p'] eqn:En2; try lia;
      cbn [shr shr_record_of_loc shr_m val]; split; reflexivity.
  - unfold shr_fexp. cbn [Zdigits2]. rewrite fexp_eq.
    pose proof (digits2_bounds q) as Hdq.
    destruct (Z.eq_dec (Zpos q) (2 ^ 24)) as [Hq|Hq].
    + assert (q = 16777216%positive) by (change (2 ^ 24) with 16777216 in Hq; lia).
      subst q. cbn [digits2_pos Pos.succ].
      replace (Z.max (25 + E - 24) (-149) - E) with 1 by lia.
      cbn [shr shr_record_of_loc iter_pos shr_1 shr_m].
      destruct (Z.leb_spec (E + 1) (emax - prec)); [|lia].
      cbn [val]. split; [reflexivity|]. split; [|lia].
      replace (E + 1 - E) with 1 by lia. reflexivity.
    + assert (Hd2 : Zpos (digits2_pos q) <= 24).
      { assert (Zpos (digits2_pos q) - 1 < 24); [|lia].
        apply pow2_lt_inv; lia. }
      destruct (Z.max (Zpos (digits2_pos q) + E - 24) (-149) - E) as [|p'|p'] eqn:En2;
        try lia; cbn [shr shr_record_of_loc shr_m];
        (destruct (Z.leb_spec E (emax - prec)); [|lia]);
        cbn [val]; (split; [reflexivity|]); (split; [|lia]);
        rewrite Z.sub_diag; cbn; lia.
Qed.
End RoundAux.

Section RealValue.
Local Open Scope R_scope.

Lemma two_neq_0 : 2 <> 0.
Proof. lra. Qed.

Lemma IZR_pow2 (k : Z) : (0 <= k)%Z -> IZR (2 ^ k) = powerRZ 2 k.
Proof.
  intros Hk. rewrite <- (Z2Nat.id k) by exact Hk.
  rewrite <- pow_powerRZ, <- pow_IZR. reflexivity.
Qed.

Lemma powerRZ2_pos (k : Z) : 0 < powerRZ 2 k.
Proof. apply powerRZ_lt. lra. Qed.

Lemma powerRZ2_le (a b : Z) : (a <= b)%Z -> powerRZ 2 a <= powerRZ 2 b.
Proof.
  intros H. replace b with (a + (b - a))%Z by lia.
  rewrite powerRZ_add by exact two_neq_0.
  rewrite <- (Rmult_1_r (powerRZ 2 a)) at 1.
  apply Rmult_le_compat_l; [apply Rlt_le, powerRZ2_pos|].
  rewrite <- IZR_pow2 by lia. apply IZR_le.
  assert (0 < 2 ^ (b - a))%Z by (apply Z.pow_pos_nonneg; lia). lia.
Qed.

(** [B2R] in terms of [F2R], and the value of an opposite. *)
Lemma B2R_finite (s : bool) (m : positive) (e : Z) :
  B2R (S754_finite s m e) = F2R s (Zpos m) e.
Proof.
  unfold B2R, F2R. destruct e as [|p|p].
  - cbn [powerRZ]. destruct s; cbn [cond_Zopp Z.opp]; ring.
  - rewrite Pos2Z.inj_pow, IZR_pow2 by lia. destruct s; reflexivity.
  - rewrite Pos2Z.inj_pow, IZR_pow2 by lia.
    change (powerRZ 2 (Z.neg p)) with (/ powerRZ 2 (Z.pos p)).
    destruct s; reflexivity.
Qed.

Lemma F2R_opp (s : bool) (m e : Z) : F2R (negb s) m e = - F2R s m e.
Proof.
  unfold F2R. destruct s; cbn [negb cond_Zopp]; rewrite ?opp_IZR; ring.
Qed.

Lemma B2R_opp (x : float32) : B2R (SFopp x) = - B2R x.
Proof.
  destruct x as [s|s| |s m e]; cbn [SFopp]; try (cbn [B2R]; ring).
  rewrite !B2R_finite. apply F2R_opp.
Qed.

Lemma is_finite_opp (x : float32) : is_finite (SFopp x) = is_finite x.
Proof. destruct x; reflexivity. Qed.

(** The value of the outcome of rounding. *)
Lemma val_B2R (s : bool) (x : float32) (m2 E : Z) :
  val s x m2 E -> is_finite x = true /\ B2R x = F2R s m2 E.
Proof.
  destruct x as [s'|s'| |s' q E']; cbn [val]; try contradiction.
  - intros [-> ->]. split; [reflexivity|]. unfold F2R. cbn [B2R].
    destruct s; cbn [cond_Zopp Z.opp]; ring.
  - intros (-> & Hq & HE). split; [reflexivity|].
    rewrite B2R_finite. unfold F2R. subst m2.
    replace E' with (E' - E + E)%Z at 1 by lia.
    rewrite powerRZ_add by exact two_neq_0.
    rewrite <- IZR_pow2 by lia.
    destruct s; cbn [cond_Zopp]; rewrite ?opp_IZR, ?mult_IZR; ring.
Qed.

(** Rounding a value of magnitude below 2 moves it by [half_ulp] at most. *)
Lemma round_aux_R (s : bool) (m : positive) (e : Z) :
  (Zpos (digits2_pos m) + e <= 1)%Z ->
  let r := binary_round_aux prec emax s (Zpos m) e loc_Exact in
  is_finite r = true /\ Rabs (B2R r - F2R s (Zpos m) e) <= half_ulp.
Proof.
  intros Hd r. subst r.
  set (E := fexp prec emax (Zpos (digits2_pos m) + e)).
  assert (HE : (E <= -23)%Z) by (subst E; rewrite fexp_eq; lia).
  destruct (Z_le_gt_dec E e) as [Hle|Hgt].
  - rewrite round_aux_exact; [|exact Hle|unfold emax, prec; lia].
    split; [reflexivity|]. rewrite B2R_finite.
    replace (F2R s (Zpos m) e - F2R s (Zpos m) e) with 0 by ring.
    rewrite Rabs_R0. unfold half_ulp. apply Rlt_le, powerRZ2_pos.
  - destruct (round_aux_shift s m e) as (m2 & Hval & Hb);
      [fold E; lia | fold E; unfold emax, prec; lia|].
    fold E in Hval, Hb.
    apply val_B2R in Hval. destruct Hval as [Hfin HB].
    split; [exact Hfin|]. rewrite HB. unfold F2R.
    apply IZR_le in Hb. rewrite abs_IZR, minus_IZR, !mult_IZR, IZR_pow2 in Hb by lia.
    assert (Hs : Rabs (IZR (cond_Zopp s m2) * powerRZ 2 E
                       - IZR (cond_Zopp s (Zpos m)) * powerRZ 2 e)
                 = powerRZ 2 (e - 1) * Rabs (2 * (powerRZ 2 (E - e) * IZR m2) - 2 * IZR (Zpos m))).
    { assert (Hp2 : powerRZ 2 e = powerRZ 2 (e - 1) * 2).
      { replace e with (e - 1 + 1)%Z at 1 by lia.
        rewrite powerRZ_add by exact two_neq_0. rewrite powerRZ_1. ring. }
      assert (Hp1 : powerRZ 2 E = powerRZ 2 (E - e) * (powerRZ 2 (e - 1) * 2)).
      { rewrite <- Hp2, <- powerRZ_add by exact two_neq_0. f_equal. lia. }
      assert (Hpos : 0 <= powerRZ 2 (e - 1)) by apply Rlt_le, powerRZ2_pos.
      rewrite Hp1, Hp2.
      destruct s; cbn [cond_Zopp]; rewrite ?opp_IZR.
      - replace (- IZR m2 * (powerRZ 2 (E - e) * (powerRZ 2 (e - 1) * 2))
                 - - IZR (Zpos m) * (powerRZ 2 (e - 1) * 2))
          with (- (powerRZ 2 (e - 1)
                   * (2 * (powerRZ 2 (E - e) * IZR m2) - 2 * IZR (Zpos m)))) by ring.
        rewrite Rabs_Ropp, Rabs_mult, (Rabs_pos_eq _ Hpos). reflexivity.
      - replace (IZR m2 * (powerRZ 2 (E - e) * (powerRZ 2 (e - 1) * 2))
                 - IZR (Zpos m) * (powerRZ 2 (e - 1) * 2))
          with (powerRZ 2 (e - 1)
                * (2 * (powerRZ 2 (E - e) * IZR m2) - 2 * IZR (Zpos m))) by ring.
        rewrite Rabs_mult, (Rabs_pos_eq _ Hpos). reflexivity. }
    rewrite Hs.
    apply Rle_trans with (powerRZ 2 (e - 1) * powerRZ 2 (E - e)).
    + apply Rmult_le_compat_l; [apply Rlt_le, powerRZ2_pos | exact Hb].
    + rewrite <- powerRZ_add by exact two_neq_0.
      unfold half_ulp. apply powerRZ2_le. lia.
Qed.
End RealValue.

Section Operations.
Local Open Scope R_scope.

(** Aligning a mantissa to a smaller exponent keeps its value and the sum
    of its number of digits and its exponent. *)
Lemma pos_iter_xO (m k : positive) :
  Zpos (Pos.iter xO m k) = (Zpos m * 2 ^ Zpos k)%Z
  /\ Zpos (digits2_pos (Pos.iter xO m k)) = (Zpos (digits2_pos m) + Zpos k)%Z.
Proof.
  induction k as [|k IH] using Pos.peano_ind.
  - cbn [Pos.iter digits2_pos]. split; [change (2 ^ 1)%Z with 2%Z; lia | lia].
  - rewrite Pos.iter_succ. cbn [digits2_pos]. destruct IH as [IH1 IH2].
    rewrite Pos2Z.inj_xO, IH1, !Pos2Z.inj_succ, IH2, Z.pow_succ_r by lia.
    split; lia.
Qed.

Lemma F2R_shift (s : bool) (m : Z) (e k : Z) :
  (0 <= k)%Z -> F2R s (m * 2 ^ k) (e - k) = F2R s m e.
Proof.
  intros Hk. unfold F2R.
  replace e with (e - k + k)%Z at 2 by lia.
  rewrite powerRZ_add by exact two_neq_0. rewrite <- (IZR_pow2 k Hk).
  destruct s; cbn [cond_Zopp]; rewrite ?opp_IZR, mult_IZR; ring.
Qed.

Lemma shl_align_value (s : bool) (m : positive) (e e' : Z) :
  F2R s (Zpos (fst (shl_align m e e'))) (snd (shl_align m e e')) = F2R s (Zpos m) e.
Proof.
  unfold shl_align. destruct (e' - e)%Z as [|d|d] eqn:Ed; cbn [fst snd]; try reflexivity.
  destruct (pos_iter_xO m d) as [H _]. rewrite H.
  replace e' with (e - Zpos d)%Z by lia. apply F2R_shift. lia.
Qed.

Lemma shl_align_digits (m : positive) (e e' : Z) :
  (Zpos (digits2_pos (fst (shl_align m e e'))) + snd (shl_align m e e')
   = Zpos (digits2_pos m) + e)%Z.
Proof.
  unfold shl_align. destruct (e' - e)%Z as [|d|d] eqn:Ed; cbn [fst snd]; try reflexivity.
  destruct (pos_iter_xO m d) as [_ H]. rewrite H. lia.
Qed.

(** [binary_round] and [binary_normalize], on a value of magnitude below 2. *)
Lemma binary_round_R (s : bool) (m : positive) (e : Z) :
  (Zpos (digits2_pos m) + e <= 1)%Z ->
  let r := binary_round prec emax s m e in
  is_finite r = true /\ Rabs (B2R r - F2R s (Zpos m) e) <= half_ulp.
Proof.
  intros Hd r. subst r. unfold binary_round.
  pose proof (shl_align_value s m e (fexp prec emax (Zpos (digits2_pos m) + e))) as Hv.
  pose proof (shl_align_digits m e (fexp prec emax (Zpos (digits2_pos m) + e))) as Hg.
  destruct (shl_align m e (fexp prec emax (Zpos (digits2_pos m) + e))) as [mz ez].
  cbn [fst snd] in Hv, Hg. rewrite <- Hv. apply round_aux_R. lia.
Qed.

(** A mantissa and exponent of magnitude below 2 has [digits + e <= 1]. *)
Lemma digits_of_small (m : positive) (e : Z) :
  IZR (Zpos m) * powerRZ 2 e < 2 -> (Zpos (digits2_pos m) + e <= 1)%Z.
Proof.
  intros H. destruct (Z_le_gt_dec (Zpos (digits2_pos m) + e) 1) as [Hle|Hgt]; [exact Hle|].
  exfalso. pose proof (digits2_bounds m) as [Hlo _].
  apply IZR_le in Hlo. rewrite IZR_pow2 in Hlo by lia.
  assert (H2 : powerRZ 2 1 <= powerRZ 2 (Zpos (digits2_pos m) - 1) * powerRZ 2 e).
  { rewrite <- powerRZ_add by exact two_neq_0. apply powerRZ2_le. lia. }
  rewrite powerRZ_1 in H2.
  assert (H3 : powerRZ 2 (Zpos (digits2_pos m) - 1) * powerRZ 2 e
               <= IZR (Zpos m) * powerRZ 2 e).
  { apply Rmult_le_compat_r; [apply Rlt_le, powerRZ2_pos | exact Hlo]. }
  lra.
Qed.

Lemma Rabs_F2R (s : bool) (m : positive) (e : Z) :
  Rabs (F2R s (Zpos m) e) = IZR (Zpos m) * powerRZ 2 e.
Proof.
  unfold F2R. rewrite Rabs_mult, (Rabs_pos_eq (powerRZ 2 e)) by apply Rlt_le, powerRZ2_pos.
  f_equal. destruct s; cbn [cond_Zopp]; rewrite ?opp_IZR, ?Rabs_Ropp;
    apply Rabs_pos_eq, IZR_le; lia.
Qed.

(** Multiplication: a product of magnitude below 2 is finite and within
    half a unit in the last place of the exact product. *)
Lemma SFmul_R (x y : float32) :
  is_finite x = true -> is_finite y = true ->
  Rabs (B2R x * B2R y) < 2 ->
  is_finite (SFmul prec emax x y) = true
  /\ Rabs (B2R (SFmul prec emax x y) - B2R x * B2R y) <= half_ulp.
Proof.
  assert (Hu : 0 <= half_ulp) by apply Rlt_le, powerRZ2_pos.
  destruct x as [sx|sx| |sx mx ex], y as [sy|sy| |sy my ey]; try discriminate;
    intros _ _ Hb; cbn [SFmul].
  - split; [reflexivity|]. cbn [B2R]. rewrite Rmult_0_l, Rminus_diag, Rabs_R0. exact Hu.
  - split; [reflexivity|]. cbn [B2R]. rewrite Rmult_0_l, Rminus_diag, Rabs_R0. exact Hu.
  - split; [reflexivity|]. cbn [B2R]. rewrite Rmult_0_r, Rminus_diag, Rabs_R0. exact Hu.
  - rewrite !B2R_finite in *.
    assert (Hprod : F2R sx (Zpos mx) ex * F2R sy (Zpos my) ey
                    = F2R (xorb sx sy) (Zpos (mx * my)) (ex + ey)).
    { unfold F2R. rewrite powerRZ_add by exact two_neq_0. rewrite Pos2Z.inj_mul.
      destruct sx, sy; cbn [xorb cond_Zopp]; rewrite ?opp_IZR, mult_IZR; ring. }
    rewrite Hprod in *. apply round_aux_R.
    apply digits_of_small. rewrite <- Rabs_F2R with (s := xorb sx sy). exact Hb.
Qed.

Lemma shl_align_snd (m : positive) (e e' : Z) :
  (e' <= e)%Z -> snd (shl_align m e e') = e'.
Proof.
  intros H. unfold shl_align.
  destruct (e' - e)%Z as [|d|d] eqn:Ed; cbn [fst snd]; lia.
Qed.

Lemma binary_normalize_R (S : Z) (e : Z) :
  Rabs (IZR S * powerRZ 2 e) < 2 ->
  let r := binary_normalize prec emax S e false in
  is_finite r = true /\ Rabs (B2R r - IZR S * powerRZ 2 e) <= half_ulp.
Proof.
  assert (Hu : 0 <= half_ulp) by apply Rlt_le, powerRZ2_pos.
  intros Hb r. subst r. destruct S as [|p|p]; cbn [binary_normalize].
  - split; [reflexivity|]. cbn [B2R]. rewrite Rmult_0_l, Rminus_diag, Rabs_R0. exact Hu.
  - change (IZR (Z.pos p) * powerRZ 2 e) with (F2R false (Zpos p) e) in *.
    apply binary_round_R. apply digits_of_small.
    rewrite <- Rabs_F2R with (s := false). exact Hb.
  - change (IZR (Z.neg p) * powerRZ 2 e) with (F2R true (Zpos p) e) in *.
    apply binary_round_R. apply digits_of_small.
    rewrite <- Rabs_F2R with (s := true). exact Hb.
Qed.

(** Addition: a sum of magnitude below 2 is finite and within half a unit
    in the last place of the exact sum. *)
Lemma SFadd_R (x y : float32) :
  is_finite x = true -> is_finite y = true ->
  Rabs (B2R x + B2R y) < 2 ->
  is_finite (SFadd prec emax x y) = true
  /\ Rabs (B2R (SFadd prec emax x y) - (B2R x + B2R y)) <= half_ulp.
Proof.
  assert (Hu : 0 <= half_ulp) by apply Rlt_le, powerRZ2_pos.
  destruct x as [sx|sx| |sx mx ex], y as [sy|sy| |sy my ey]; try discriminate;
    intros _ _ Hb; cbn [SFadd].
  - destruct sx, sy; (split; [reflexivity|]); cbn [B2R];
      rewrite Rplus_0_l, Rminus_diag, Rabs_R0; exact Hu.
  - split; [reflexivity|].
    replace (B2R (S754_zero sx)) with 0 by reflexivity.
    rewrite Rplus_0_l, Rminus_diag, Rabs_R0. exact Hu.
  - split; [reflexivity|].
    replace (B2R (S754_zero sy)) with 0 by reflexivity.
    rewrite Rplus_0_r, Rminus_diag, Rabs_R0. exact Hu.
  - rewrite !B2R_finite in *.
    set (ez := Z.min ex ey) in *.
    assert (Hx : F2R sx (Zpos mx) ex
                 = IZR (cond_Zopp sx (Zpos (fst (shl_align mx ex ez)))) * powerRZ 2 ez).
    { rewrite <- (shl_align_value sx mx ex ez), shl_align_snd by (subst ez; lia).
      reflexivity. }
    assert (Hy : F2R sy (Zpos my) ey
                 = IZR (cond_Zopp sy (Zpos (fst (shl_align my ey ez)))) * powerRZ 2 ez).
    { rewrite <- (shl_align_value sy my ey ez), shl_align_snd by (subst ez; lia).
      reflexivity. }
    rewrite Hx, Hy in *. rewrite <- Rmult_plus_distr_r, <- plus_IZR in *.
    now apply binary_normalize_R.
Qed.
End Operations.

(** ** The rounding error of a row times a column *)

Section DotProduct.
Local Open Scope R_scope.

(** The two tolerances as numbers. *)
Lemma half_ulp_val : half_ulp = / 16777216.
Proof.
  unfold half_ulp, powerRZ. f_equal.
  rewrite pow_IZR. f_equal.
Qed.

Lemma libm_tol_val : libm_tol = / 8388608.
Proof.
  unfold libm_tol, powerRZ. f_equal.
  rewrite pow_IZR. f_equal.
Qed.

Lemma Rabs_le_inv' (x b : R) : Rabs x <= b -> - b <= x <= b.
Proof. unfold Rabs. destruct (Rcase_abs x); lra. Qed.

Lemma Rabs_bounds (x : R) : - Rabs x <= x <= Rabs x.
Proof. unfold Rabs. destruct (Rcase_abs x); lra. Qed.

Lemma B2R_zero : B2R (of_Z 0) = 0.
Proof. reflexivity. Qed.

Lemma B2R_one : B2R (of_Z 1) = 1.
Proof.
  rewrite of_Z_one. cbn [B2R].
  replace (Z.pos (2 ^ 23)) with 8388608%Z by reflexivity. field.
Qed.

(** Four products added from left to right, as [mat4mult] computes an
    element: seven roundings.  If the magnitudes of the exact products add
    up to 3/2 at most, every intermediate value stays below 2 and the
    result is within seven [half_ulp] of the exact sum. *)
Lemma dot4_R (a0 b0 a1 b1 a2 b2 a3 b3 : float32) :
  is_finite a0 = true -> is_finite b0 = true ->
  is_finite a1 = true -> is_finite b1 = true ->
  is_finite a2 = true -> is_finite b2 = true ->
  is_finite a3 = true -> is_finite b3 = true ->
  Rabs (B2R a0 * B2R b0) + Rabs (B2R a1 * B2R b1)
  + Rabs (B2R a2 * B2R b2) + Rabs (B2R a3 * B2R b3) <= 3 / 2 ->
  let r := SFadd prec emax
             (SFadd prec emax
                (SFadd prec emax (SFmul prec emax a0 b0) (SFmul prec emax a1 b1))
                (SFmul prec emax a2 b2))
             (SFmul prec emax a3 b3) in
  is_finite r = true
  /\ Rabs (B2R r - (B2R a0 * B2R b0 + B2R a1 * B2R b1
                    + B2R a2 * B2R b2 + B2R a3 * B2R b3)) <= 7 * half_ulp.
Proof.
  intros Fa0 Fb0 Fa1 Fb1 Fa2 Fb2 Fa3 Fb3 HT r. subst r.
  rewrite half_ulp_val.
  set (A0 := B2R a0 * B2R b0) in *. set (A1 := B2R a1 * B2R b1) in *.
  set (A2 := B2R a2 * B2R b2) in *. set (A3 := B2R a3 * B2R b3) in *.
  pose proof (Rabs_bounds A0) as B0. pose proof (Rabs_bounds A1) as B1.
  pose proof (Rabs_bounds A2) as B2. pose proof (Rabs_bounds A3) as B3.
  destruct (SFmul_R a0 b0 Fa0 Fb0) as [F0 E0]; [apply Rabs_def1; fold A0; lra|].
  destruct (SFmul_R a1 b1 Fa1 Fb1) as [F1 E1]; [apply Rabs_def1; fold A1; lra|].
  destruct (SFmul_R a2 b2 Fa2 Fb2) as [F2 E2]; [apply Rabs_def1; fold A2; lra|].
  destruct (SFmul_R a3 b3 Fa3 Fb3) as [F3 E3]; [apply Rabs_def1; fold A3; lra|].
  fold A0 in E0. fold A1 in E1. fold A2 in E2. fold A3 in E3.
  rewrite half_ulp_val in E0, E1, E2, E3.
  apply Rabs_le_inv' in E0, E1, E2, E3.
  set (p0 := SFmul prec emax a0 b0) in *. set (p1 := SFmul prec emax a1 b1) in *.
  set (p2 := SFmul prec emax a2 b2) in *. set (p3 := SFmul prec emax a3 b3) in *.
  destruct (SFadd_R p0 p1 F0 F1) as [G1 D1]; [apply Rabs_def1; lra|].
  rewrite half_ulp_val in D1. apply Rabs_le_inv' in D1.
  set (s1 := SFadd prec emax p0 p1) in *.
  destruct (SFadd_R s1 p2 G1 F2) as [G2 D2]; [apply Rabs_def1; lra|].
  rewrite half_ulp_val in D2. apply Rabs_le_inv' in D2.
  set (s2 := SFadd prec emax s1 p2) in *.
  destruct (SFadd_R s2 p3 G2 F3) as [G3 D3]; [apply Rabs_def1; lra|].
  rewrite half_ulp_val in D3. apply Rabs_le_inv' in D3.
  split; [exact G3|]. apply Rabs_le. lra.
Qed.
End DotProduct.

(** ** The product of a rotation and its inverse

    With [c], [s] the values stored for the cosine and the sine of the angle
    and [c'], [s'] those stored for the opposite angle, each within
    [libm_tol] of the real value, an element of the product is within
    [9 * half_ulp] of the identity's in exact arithmetic and seven roundings
    away from that: [16 * half_ulp], which is below [1e-6]. *)

Section NearProducts.
Local Open Scope R_scope.

(** The product of two approximations of numbers of magnitude 1 at most. *)
Lemma near_prod (P Q p q u : R) :
  0 <= u -> Rabs (P - p) <= u -> Rabs (Q - q) <= u -> Rabs p <= 1 -> Rabs q <= 1 ->
  Rabs (P * Q - p * q) <= 2 * u + u * u.
Proof.
  intros Hu HP HQ Hp Hq.
  replace (P * Q - p * q) with ((P - p) * q + p * (Q - q) + (P - p) * (Q - q)) by ring.
  eapply Rle_trans; [apply Rabs_triang|].
  eapply Rle_trans; [apply Rplus_le_compat_r, Rabs_triang|].
  rewrite !Rabs_mult.
  pose proof (Rabs_pos (P - p)). pose proof (Rabs_pos (Q - q)).
  pose proof (Rabs_pos p). pose proof (Rabs_pos q).
  assert (Rabs (P - p) * Rabs q <= u * 1) by (apply Rmult_le_compat; assumption).
  assert (Rabs p * Rabs (Q - q) <= 1 * u) by (apply Rmult_le_compat; assumption).
  assert (Rabs (P - p) * Rabs (Q - q) <= u * u) by (apply Rmult_le_compat; assumption).
  lra.
Qed.

Lemma near_prod_abs (P Q p q u : R) :
  0 <= u -> u <= 1 ->
  Rabs (P - p) <= u -> Rabs (Q - q) <= u -> Rabs p <= 1 -> Rabs q <= 1 ->
  Rabs (P * Q) <= Rabs (p * q) + 3 * u.
Proof.
  intros Hu Hu1 HP HQ Hp Hq.
  pose proof (near_prod P Q p q u Hu HP HQ Hp Hq) as H.
  replace (P * Q) with ((P * Q - p * q) + p * q) by ring.
  eapply Rle_trans; [apply Rabs_triang|].
  assert (u * u <= 1 * u) by (apply Rmult_le_compat_r; assumption).
  lra.
Qed.

(** A point of the unit circle. *)
Lemma unit_circle_bounds (x y : R) :
  x * x + y * y = 1 ->
  Rabs x <= 1 /\ Rabs y <= 1
  /\ Rabs (x * x) = x * x /\ Rabs (y * y) = y * y
  /\ Rabs (x * y) <= 1 / 2.
Proof.
  intros H.
  split; [apply Rabs_le; nra|]. split; [apply Rabs_le; nra|].
  split; [apply Rabs_pos_eq; nra|]. split; [apply Rabs_pos_eq; nra|].
  pose proof (Rle_0_sqr (x - y)) as H1. pose proof (Rle_0_sqr (x + y)) as H2.
  unfold Rsqr in H1, H2. apply Rabs_le. split; lra.
Qed.
End NearProducts.

Section RotationError.
Local Open Scope R_scope.
Variables (c s c' s' : float32) (x y : R).
Hypothesis Fc : is_finite c = true.
Hypothesis Fs : is_finite s = true.
Hypothesis Fc' : is_finite c' = true.
Hypothesis Fs' : is_finite s' = true.
Hypothesis Hc : Rabs (B2R c - x) <= libm_tol.
Hypothesis Hs : Rabs (B2R s - y) <= libm_tol.
Hypothesis Hc' : Rabs (B2R c' - x) <= libm_tol.
Hypothesis Hs' : Rabs (B2R s' - - y) <= libm_tol.
Hypothesis Hxy : x * x + y * y = 1.

(** An element of the product: the rounding error of [dot4_R] on top of
    the distance of the exact sum from the target [t]. *)
Lemma dot4_close (a0 b0 a1 b1 a2 b2 a3 b3 : float32) (t : R) :
  is_finite a0 = true -> is_finite b0 = true ->
  is_finite a1 = true -> is_finite b1 = true ->
  is_finite a2 = true -> is_finite b2 = true ->
  is_finite a3 = true -> is_finite b3 = true ->
  Rabs (B2R a0 * B2R b0) + Rabs (B2R a1 * B2R b1)
  + Rabs (B2R a2 * B2R b2) + Rabs (B2R a3 * B2R b3) <= 3 / 2 ->
  - (9 / 16777216) <= B2R a0 * B2R b0 + B2R a1 * B2R b1
                      + B2R a2 * B2R b2 + B2R a3 * B2R b3 - t <= 9 / 16777216 ->
  approx 1e-6
    (SFadd prec emax
       (SFadd prec emax
          (SFadd prec emax (SFmul prec emax a0 b0) (SFmul prec emax a1 b1))
          (SFmul prec emax a2 b2))
       (SFmul prec emax a3 b3)) t.
Proof.
  intros Fa0 Fb0 Fa1 Fb1 Fa2 Fb2 Fa3 Fb3 HT HV.
  destruct (dot4_R a0 b0 a1 b1 a2 b2 a3 b3 Fa0 Fb0 Fa1 Fb1 Fa2 Fb2 Fa3 Fb3 HT)
    as [Hf He].
  split; [exact Hf|]. unfold close.
  rewrite half_ulp_val in He. apply Rabs_le_inv' in He.
  apply Rabs_def1; lra.
Qed.

(** The magnitudes of the four products of stored values, and the two
    sums that occur in the product of the two rotations. *)
Lemma trig_product_bounds :
  let C := B2R c in let S := B2R s in let C' := B2R c' in let S' := B2R s' in
  (Rabs (C * C') <= x * x + 3 / 8388608
   /\ Rabs (S * S') <= y * y + 3 / 8388608
   /\ Rabs (S * C') <= 1 / 2 + 3 / 8388608
   /\ Rabs (C * S') <= 1 / 2 + 3 / 8388608)
  /\ (- (9 / 16777216) <= C * C' - S * S' - 1 <= 9 / 16777216)
  /\ (- (9 / 16777216) <= S * C' + C * S' <= 9 / 16777216).
Proof.
  intros C S C' S'.
  destruct (unit_circle_bounds x y Hxy) as (Bx & By & Exx & Eyy & Bxy).
  assert (By' : Rabs (- y) <= 1) by (rewrite Rabs_Ropp; exact By).
  assert (Hu : 0 <= libm_tol) by (rewrite libm_tol_val; lra).
  assert (Hu1 : libm_tol <= 1) by (rewrite libm_tol_val; lra).
  pose proof (near_prod_abs C C' x x _ Hu Hu1 Hc Hc' Bx Bx) as Acc.
  pose proof (near_prod_abs S S' y (- y) _ Hu Hu1 Hs Hs' By By') as Ass.
  pose proof (near_prod_abs S C' y x _ Hu Hu1 Hs Hc' By Bx) as Asc.
  pose proof (near_prod_abs C S' x (- y) _ Hu Hu1 Hc Hs' Bx By') as Acs.
  pose proof (near_prod C C' x x _ Hu Hc Hc' Bx Bx) as Vcc.
  pose proof (near_prod S S' y (- y) _ Hu Hs Hs' By By') as Vss.
  pose proof (near_prod S C' y x _ Hu Hs Hc' By Bx) as Vsc.
  pose proof (near_prod C S' x (- y) _ Hu Hc Hs' Bx By') as Vcs.
  replace (y * - y) with (- (y * y)) in * by ring.
  replace (x * - y) with (- (x * y)) in * by ring.
  rewrite Rabs_Ropp in Ass, Acs.
  replace (y * x) with (x * y) in * by ring.
  rewrite Exx in Acc. rewrite Eyy in Ass.
  rewrite libm_tol_val in *.
  apply Rabs_le_inv' in Vcc, Vss, Vsc, Vcs.
  split; [split; [lra|split; [lra|split; lra]]|].
  split; lra.
Qed.

Ltac finite_factor :=
  first [ exact Fc | exact Fs | exact Fc' | exact Fs'
        | rewrite is_finite_opp; first [exact Fs | exact Fs']
        | reflexivity ].

Ltac product_entry B :=
  apply dot4_close; [finite_factor ..| |];
  rewrite ?B2R_opp, ?B2R_zero, ?B2R_one;
  [ rewrite ?Rmult_0_l, ?Rmult_0_r, ?Rmult_1_l, ?Rabs_R0, ?Rabs_R1;
    rewrite <- ?Ropp_mult_distr_l, <- ?Ropp_mult_distr_r, ?Rabs_Ropp;
    cbv zeta in B; lra
  | cbv zeta in B; lra ].

(** The sixteen elements, for the layouts of [mat4rotz] and [mat4roty]. *)
Lemma rotz_product_approx :
  approx16 1e-6
    (spec_product
       [c; s; of_Z 0; of_Z 0; SFopp s; c; of_Z 0; of_Z 0;
        of_Z 0; of_Z 0; of_Z 1; of_Z 0; of_Z 0; of_Z 0; of_Z 0; of_Z 1]
       [c'; s'; of_Z 0; of_Z 0; SFopp s'; c'; of_Z 0; of_Z 0;
        of_Z 0; of_Z 0; of_Z 1; of_Z 0; of_Z 0; of_Z 0; of_Z 0; of_Z 1])
    (@identity_elems R arithR).
Proof.
  pose proof trig_product_bounds as B.
  unfold approx16.
  cbv [spec_product spec_entry idx16 map elt col_major nth identity_elems
       Z.to_nat Z.modulo Z.div Z.div_eucl Z.pos_div_eucl Z.mul Z.add Z.leb Z.ltb
       Z.compare Pos.compare Pos.compare_cont Z.sub Z.opp Z.pos_sub Z.succ_double
       Z.pred_double Z.double Pos.pred_double Pos.mul Pos.add Pos.succ
       Pos.to_nat Pos.iter_op Nat.add fst snd].
  cbn [fadd fmul arith32 of_int arithR].
  repeat (apply Forall2_cons; [product_entry B|]).
  apply Forall2_nil.
Qed.

Lemma roty_product_approx :
  approx16 1e-6
    (spec_product
       [c; of_Z 0; SFopp s; of_Z 0; of_Z 0; of_Z 1; of_Z 0; of_Z 0;
        s; of_Z 0; c; of_Z 0; of_Z 0; of_Z 0; of_Z 0; of_Z 1]
       [c'; of_Z 0; SFopp s'; of_Z 0; of_Z 0; of_Z 1; of_Z 0; of_Z 0;
        s'; of_Z 0; c'; of_Z 0; of_Z 0; of_Z 0; of_Z 0; of_Z 1])
    (@identity_elems R arithR).
Proof.
  pose proof trig_product_bounds as B.
  unfold approx16.
  cbv [spec_product spec_entry idx16 map elt col_major nth identity_elems
       Z.to_nat Z.modulo Z.div Z.div_eucl Z.pos_div_eucl Z.mul Z.add Z.leb Z.ltb
       Z.compare Pos.compare Pos.compare_cont Z.sub Z.opp Z.pos_sub Z.succ_double
       Z.pred_double Z.double Pos.pred_double Pos.mul Pos.add Pos.succ
       Pos.to_nat Pos.iter_op Nat.add fst snd].
  cbn [fadd fmul arith32 of_int arithR].
  repeat (apply Forall2_cons; [product_entry B|]).
  apply Forall2_nil.
Qed.
End RotationError.

Section RotationClaims.
Local Open Scope Z_scope.

Lemma approx16_head (eps : R) (A : list float32) (B : list R) :
  approx16 eps A B -> is_finite (elt A 0) = true.
Proof.
  intros H. destruct H as [|a b A' B' [Hf _] _]; [reflexivity|exact Hf].
Qed.

(** A NaN as the first operand. *)
Lemma add_nan_left (x : float32) : SFadd prec emax S754_nan x = S754_nan.
Proof. destruct x; reflexivity. Qed.

Lemma mul_nan_left (x : float32) : SFmul prec emax S754_nan x = S754_nan.
Proof. destruct x; reflexivity. Qed.

(** A NaN for the cosine ends up in element 0 of the product. *)
Lemma rotation_product_head (Tr : Trig float32) (junk : local float32)
    (m : mem float32) (Ra Rb Out : addr) (theta : float32) :
  disjoint16 Ra Rb -> fcos theta = S754_nan ->
  elt (load16 (mat4mult junk (mat4rotz (mat4rotz m Ra theta) Rb (fneg theta))
                 Ra Rb Out) Out) 0 = S754_nan
  /\ elt (load16 (mat4mult junk (mat4roty (mat4roty m Ra theta) Rb (fneg theta))
                    Ra Rb Out) Out) 0 = S754_nan.
Proof.
  intros Hd Hc.
  assert (Hd' : disjoint16 Rb Ra) by (unfold disjoint16 in *; lia).
  split.
  - rewrite mat4mult_load, mat4rotz_load, (mat4rotz_frame _ _ Hd'), mat4rotz_load.
    rewrite Hc.
    cbv [spec_product spec_entry idx16 map elt col_major nth
         Z.to_nat Z.modulo Z.div Z.div_eucl Z.mul Z.add Pos.to_nat].
    cbn [fadd fmul arith32]. now rewrite mul_nan_left, !add_nan_left.
  - rewrite mat4mult_load, mat4roty_load, (mat4roty_frame _ _ Hd'), mat4roty_load.
    rewrite Hc.
    cbv [spec_product spec_entry idx16 map elt col_major nth
         Z.to_nat Z.modulo Z.div Z.div_eucl Z.mul Z.add Pos.to_nat].
    cbn [fadd fmul arith32]. now rewrite mul_nan_left, !add_nan_left.
Qed.

(** C7, as stated for every angle, fails in binary32.  For the angle
    [+infinity] a library that follows Annex F of the C standard returns a
    NaN for the cosine; [mat4rotz] and [mat4roty] store it in element 0,
    and element 0 of the product, [NaN*c' + (-s)*s' + 0*0 + 0*0], is a NaN:
    the product is within no tolerance of the identity, and the claim does
    not hold for every angle. *)
Lemma rotation_inverse_nan_at_infinity :
  (forall (Tr : Trig float32) (junk : local float32) (m : mem float32)
          (Ra Rb Out : addr) (eps : R),
      disjoint16 Ra Rb -> fcos pinf = S754_nan ->
      let pz := load16 (mat4mult junk (mat4rotz (mat4rotz m Ra pinf) Rb (fneg pinf))
                          Ra Rb Out) Out in
      let py := load16 (mat4mult junk (mat4roty (mat4roty m Ra pinf) Rb (fneg pinf))
                          Ra Rb Out) Out in
      elt pz 0 = S754_nan /\ elt py 0 = S754_nan
      /\ ~ approx16 eps pz identity_elems /\ ~ approx16 eps py identity_elems)
  /\ @fcos _ libm_nan_at_infinity pinf = S754_nan
  /\ elt (load16 (@mat4mult _ arith32 zeros
                    (@mat4rotz _ arith32 libm_nan_at_infinity
                       (@mat4rotz _ arith32 libm_nan_at_infinity zeros 0 pinf)
                       16 (SFopp pinf)) 0 16 32) 32) 0 = S754_nan
  /\ ~ (forall (junk : local float32) (m : mem float32) (Ra Rb Out : addr)
               (theta : float32),
           disjoint16 Ra Rb ->
           approx16 1e-6
             (load16 (mat4mult junk
                        (mat4rotz (Tr := libm_nan_at_infinity)
                           (mat4rotz (Tr := libm_nan_at_infinity) m Ra theta)
                           Rb (fneg theta))
                        Ra Rb Out) Out)
             identity_elems).
Proof.
  split; [|split; [reflexivity | split; [vm_compute; reflexivity|]]].
  2: { intros Hall.
       assert (Hd : disjoint16 0 16) by (unfold disjoint16; lia).
       specialize (Hall zeros zeros 0 16 32 pinf Hd).
       apply approx16_head in Hall. vm_compute in Hall. discriminate Hall. }
  intros Tr junk m Ra Rb Out eps Hd Hc pz py.
  destruct (rotation_product_head Tr junk m Ra Rb Out pinf Hd Hc) as [Hz Hy].
  fold pz in Hz. fold py in Hy.
  split; [exact Hz|]. split; [exact Hy|].
  split; intros H; apply approx16_head in H.
  - rewrite Hz in H. discriminate H.
  - rewrite Hy in H. discriminate H.
Qed.

(** C7, amended.  In binary32, for every finite angle at which the
    library's cosine and sine, at the angle and at its opposite, are finite
    and within [2^-23] of the real cosine and sine, the sixteen elements
    of [mat4mult(rotz(theta), rotz(-theta))] are finite and within [1e-6]
    of those of the identity; likewise for [mat4roty], so in particular for
    the [float] values of 0, PI/4, PI/2, PI and 3*PI/2. *)
Theorem rotation_inverse_binary32 :
  forall (Tr : Trig float32) (junk : local float32) (m : mem float32)
         (Ra Rb Out : addr) (theta : float32),
    disjoint16 Ra Rb -> is_finite theta = true ->
    libm_accurate Tr theta -> libm_accurate Tr (fneg theta) ->
    let mz := mat4rotz (mat4rotz m Ra theta) Rb (fneg theta) in
    let my := mat4roty (mat4roty m Ra theta) Rb (fneg theta) in
    approx16 1e-6 (load16 (mat4mult junk mz Ra Rb Out) Out) identity_elems
    /\ approx16 1e-6 (load16 (mat4mult junk my Ra Rb Out) Out) identity_elems.
Proof.
  intros Tr junk m Ra Rb Out theta Hd Hfin (Fc & Fs & Hc & Hs) (Fc' & Fs' & Hc' & Hs')
         mz my.
  assert (Hd' : disjoint16 Rb Ra) by (unfold disjoint16 in *; lia).
  cbn [fneg arith32] in *.
  rewrite B2R_opp in Hc', Hs'. rewrite cos_neg in Hc'. rewrite sin_neg in Hs'.
  assert (Hxy : (cos (B2R theta) * cos (B2R theta)
                 + sin (B2R theta) * sin (B2R theta) = 1)%R).
  { pose proof (sin2_cos2 (B2R theta)) as H. unfold Rsqr in H. lra. }
  split.
  - subst mz. rewrite mat4mult_load, mat4rotz_load, (mat4rotz_frame _ _ Hd'), mat4rotz_load.
    exact (rotz_product_approx _ _ _ _ _ _ Fc Fs Fc' Fs' Hc Hs Hc' Hs' Hxy).
  - subst my. rewrite mat4mult_load, mat4roty_load, (mat4roty_frame _ _ Hd'), mat4roty_load.
    exact (roty_product_approx _ _ _ _ _ _ Fc Fs Fc' Fs' Hc Hs Hc' Hs' Hxy).
Qed.

End RotationClaims.

(** ** A small angle *)

Section Small.
Local Open Scope R_scope.

Lemma B2R_tiny_angle : B2R tiny_angle = / 8388608.
Proof.
  unfold tiny_angle. cbn [B2R].
  replace (Z.pos (2 ^ 46)) with 70368744177664%Z by reflexivity. lra.
Qed.

(** For an angle [t] between 0 and [2^-23], 1 and [t] are within [2^-23]
    of the cosine and the sine of [t] and of [-t]. *)
Lemma small_angle_trig (t : R) :
  0 < t <= / 8388608 ->
  Rabs (1 - cos t) <= / 8388608 /\ Rabs (t - sin t) <= / 8388608
  /\ Rabs (1 - cos (- t)) <= / 8388608 /\ Rabs (- t - sin (- t)) <= / 8388608.
Proof.
  intros [H0 H1]. rewrite cos_neg, sin_neg.
  pose proof PI_RGT_0 as Hpi. pose proof PI2_3_2 as Hpi2.
  assert (Hs : 0 < sin t < t) by (split; [apply sin_gt_0; lra | apply sin_lt_x; lra]).
  assert (Hh : 0 < sin (t / 2) < t / 2)
    by (split; [apply sin_gt_0; lra | apply sin_lt_x; lra]).
  assert (Hc : cos t = 1 - 2 * sin (t / 2) * sin (t / 2)).
  { replace t with (2 * (t / 2)) at 1 by field. apply cos_2a_sin. }
  assert (Hsq : 0 <= sin (t / 2) * sin (t / 2) <= t / 2 * (t / 2)) by nra.
  assert (Hb : t / 2 * (t / 2) <= t / 4) by nra.
  split; [apply Rabs_le; lra|]. split; [apply Rabs_le; lra|].
  split; apply Rabs_le; lra.
Qed.

Lemma some_libm_accurate_tiny :
  libm_accurate some_libm tiny_angle /\ libm_accurate some_libm (SFopp tiny_angle).
Proof.
  assert (Ht : 0 < / 8388608 <= / 8388608) by lra.
  destruct (small_angle_trig _ Ht) as (H1 & H2 & H3 & H4).
  unfold libm_accurate. cbn [fcos fsin some_libm].
  rewrite B2R_opp, B2R_one, B2R_tiny_angle, libm_tol_val.
  repeat split; assumption.
Qed.
End Small.

(** ** The amended claim at a concrete angle *)

Section RotationInstances.
Local Open Scope Z_scope.

(** C7, amended, at the angle [2^-23], where the constant 1 and the angle
    itself are within [2^-23] of the cosine and the sine. *)
Lemma rotation_inverse_binary32_witness :
  approx16 1e-6
    (load16 (@mat4mult _ arith32 zeros
               (@mat4rotz _ arith32 some_libm
                  (@mat4rotz _ arith32 some_libm zeros 0 tiny_angle)
                  16 (SFopp tiny_angle)) 0 16 32) 32)
    identity_elems
  /\ approx16 1e-6
       (load16 (@mat4mult _ arith32 zeros
                  (@mat4roty _ arith32 some_libm
                     (@mat4roty _ arith32 some_libm zeros 0 tiny_angle)
                     16 (SFopp tiny_angle)) 0 16 32) 32)
       identity_elems.
Proof.
  assert (Hd : disjoint16 0 16) by (unfold disjoint16; lia).
  exact (rotation_inverse_binary32 some_libm zeros zeros 0 16 32 tiny_angle
           Hd eq_refl (proj1 some_libm_accurate_tiny) (proj2 some_libm_accurate_tiny)).
Defined.
End RotationInstances.

(** * Further properties of the routines *)

(** ** What the routines leave untouched *)

Ltac solve_outside :=
  let Ha := fresh "Ha" in
  intros Ha;
  unfold mat4rotx, mat4roty, mat4rotz, mat4scale, mat4translate, mat4perspective;
  unfold mat4identity; cbv zeta;
  rewrite ?wr_outside by (unfold within16 in Ha; lia);
  reflexivity.

Section Outside.
Context {F : Type} {Ar : Arith F} {Tr : Trig F}.
Local Open Scope Z_scope.

Lemma disjoint16_sym (p q : addr) : disjoint16 p q -> disjoint16 q p.
Proof. unfold disjoint16. lia. Qed.

Lemma mat4identity_outside (m : mem F) (M a : addr) :
  ~ within16 M a -> mat4identity m M a = m a.
Proof. solve_outside. Qed.

Lemma mat4rotx_outside (m : mem F) (M a : addr) (angle : F) :
  ~ within16 M a -> mat4rotx m M angle a = m a.
Proof. solve_outside. Qed.

Lemma mat4roty_outside (m : mem F) (M a : addr) (angle : F) :
  ~ within16 M a -> mat4roty m M angle a = m a.
Proof. solve_outside. Qed.

Lemma mat4rotz_outside (m : mem F) (M a : addr) (angle : F) :
  ~ within16 M a -> mat4rotz m M angle a = m a.
Proof. solve_outside. Qed.

Lemma mat4scale_outside (m : mem F) (M a : addr) (scale : F) :
  ~ within16 M a -> mat4scale m M scale a = m a.
Proof. solve_outside. Qed.

Lemma mat4translate_outside (m : mem F) (M a : addr) (x y z : F) :
  ~ within16 M a -> mat4translate m M x y z a = m a.
Proof. solve_outside. Qed.

Lemma mat4perspective_outside (m : mem F) (M a : addr) (vfov aspect znear zfar : F) :
  ~ within16 M a -> mat4perspective m M vfov aspect znear zfar a = m a.
Proof. solve_outside. Qed.

Lemma mat4mult_outside (junk : local F) (m : mem F) (M1 M2 Mout a : addr) :
  ~ within16 Mout a -> mat4mult junk m M1 M2 Mout a = m a.
Proof.
  intros Ha. rewrite mat4mult_mem. unfold within16 in Ha.
  destruct (Z.leb_spec Mout a), (Z.ltb_spec a (Mout + 16)); cbn [andb]; try reflexivity; lia.
Qed.
End Outside.

(** X1.  None of the eight routines writes outside the sixteen cells of its
    output buffer: every other address holds after the call what it held
    before. *)
Theorem routines_write_only_output :
  forall (F : Type) (Ar : Arith F) (Tr : Trig F) (junk : local F) (m : mem F)
         (M M1 M2 a : addr) (s x y z w : F),
    ~ within16 M a ->
    mat4mult junk m M1 M2 M a = m a
    /\ mat4identity m M a = m a
    /\ mat4rotx m M s a = m a
    /\ mat4roty m M s a = m a
    /\ mat4rotz m M s a = m a
    /\ mat4scale m M s a = m a
    /\ mat4translate m M x y z a = m a
    /\ mat4perspective m M x y z w a = m a.
Proof.
  intros F Ar Tr junk m M M1 M2 a s x y z w Ha.
  split; [now apply mat4mult_outside|].
  split; [now apply mat4identity_outside|].
  split; [now apply mat4rotx_outside|].
  split; [now apply mat4roty_outside|].
  split; [now apply mat4rotz_outside|].
  split; [now apply mat4scale_outside|].
  split; [now apply mat4translate_outside | now apply mat4perspective_outside].
Qed.

Section Overwrite.
Context {F : Type} {Ar : Arith F} {Tr : Trig F}.
Local Open Scope Z_scope.

(** A routine that writes all sixteen cells of [M] and nothing else gives
    the same memory from two memories that differ only inside [M]. *)
Lemma overwrite_agree (f : mem F -> mem F) (M : addr) :
  (forall m m', load16 (f m) M = load16 (f m') M) ->
  (forall m a, ~ within16 M a -> f m a = m a) ->
  forall m m',
    (forall a, ~ within16 M a -> m a = m' a) ->
    forall a, f m a = f m' a.
Proof.
  intros Hload Hout m m' Hagree.
  apply mem_eq_split with (M := M); [apply Hload|].
  intros a Ha. rewrite !Hout by exact Ha. now apply Hagree.
Qed.
End Overwrite.

(** X2.  A constructor discards what its buffer held: from two memories
    that differ only in the sixteen cells of [M], each of the seven
    constructors produces the same memory.  So a constructor called after
    another one on the same buffer does not compose with it; for instance
    [mat4rotz(M, angle); mat4translate(M, x, y, z);] leaves what
    [mat4translate(M, x, y, z);] alone leaves. *)
Theorem constructors_overwrite :
  forall (F : Type) (Ar : Arith F) (Tr : Trig F) (m m' : mem F) (M : addr)
         (s x y z w : F),
    (forall a, ~ within16 M a -> m a = m' a) ->
    (forall a,
        mat4identity m M a = mat4identity m' M a
        /\ mat4rotx m M s a = mat4rotx m' M s a
        /\ mat4roty m M s a = mat4roty m' M s a
        /\ mat4rotz m M s a = mat4rotz m' M s a
        /\ mat4scale m M s a = mat4scale m' M s a
        /\ mat4translate m M x y z a = mat4translate m' M x y z a
        /\ mat4perspective m M x y z w a = mat4perspective m' M x y z w a)
    /\ (forall a, mat4translate (mat4rotz m M s) M x y z a = mat4translate m M x y z a).
Proof.
  intros F Ar Tr m m' M s x y z w Hagree. split.
  - intros a.
    split; [exact (overwrite_agree (fun m0 => mat4identity m0 M) M
                     (fun m1 m2 => eq_trans (mat4identity_load m1 M)
                                     (eq_sym (mat4identity_load m2 M)))
                     (fun m0 a0 => @mat4identity_outside F Ar m0 M a0) m m' Hagree a)|].
    split; [exact (overwrite_agree (fun m0 => mat4rotx m0 M s) M
                     (fun m1 m2 => eq_trans (mat4rotx_load m1 M s)
                                     (eq_sym (mat4rotx_load m2 M s)))
                     (fun m0 a0 => @mat4rotx_outside F Ar Tr m0 M a0 s) m m' Hagree a)|].
    split; [exact (overwrite_agree (fun m0 => mat4roty m0 M s) M
                     (fun m1 m2 => eq_trans (mat4roty_load m1 M s)
                                     (eq_sym (mat4roty_load m2 M s)))
                     (fun m0 a0 => @mat4roty_outside F Ar Tr m0 M a0 s) m m' Hagree a)|].
    split; [exact (overwrite_agree (fun m0 => mat4rotz m0 M s) M
                     (fun m1 m2 => eq_trans (mat4rotz_load m1 M s)
                                     (eq_sym (mat4rotz_load m2 M s)))
                     (fun m0 a0 => @mat4rotz_outside F Ar Tr m0 M a0 s) m m' Hagree a)|].
    split; [exact (overwrite_agree (fun m0 => mat4scale m0 M s) M
                     (fun m1 m2 => eq_trans (mat4scale_load m1 M s)
                                     (eq_sym (mat4scale_load m2 M s)))
                     (fun m0 a0 => @mat4scale_outside F Ar m0 M a0 s) m m' Hagree a)|].
    split; [exact (overwrite_agree (fun m0 => mat4translate m0 M x y z) M
                     (fun m1 m2 => eq_trans (mat4translate_load m1 M x y z)
                                     (eq_sym (mat4translate_load m2 M x y z)))
                     (fun m0 a0 => @mat4translate_outside F Ar m0 M a0 x y z)
                     m m' Hagree a)|].
    exact (overwrite_agree (fun m0 => mat4perspective m0 M x y z w) M
             (fun m1 m2 => eq_trans (mat4perspective_load m1 M x y z w)
                             (eq_sym (mat4perspective_load m2 M x y z w)))
             (fun m0 a0 => @mat4perspective_outside F Ar Tr m0 M a0 x y z w)
             m m' Hagree a).
  - exact (overwrite_agree (fun m0 => mat4translate m0 M x y z) M
             (fun m1 m2 => eq_trans (mat4translate_load m1 M x y z)
                             (eq_sym (mat4translate_load m2 M x y z)))
             (fun m0 a0 => @mat4translate_outside F Ar m0 M a0 x y z)
             (mat4rotz m M s) m (fun a0 Ha => @mat4rotz_outside F Ar Tr m M a0 s Ha)).
Qed.

(** ** The render loop *)

(** All the disjointness facts a [buffers_ok] layout gives, in both
    directions. *)
Ltac buffers_facts H :=
  unfold buffers_ok in H; cbn [all_disjoint] in H;
  repeat match goal with
    | H : _ /\ _ |- _ => destruct H
    | H : Forall _ (_ :: _) |- _ =>
        let H1 := fresh "Hd" in
        let H2 := fresh "Hf" in
        pose proof (Forall_inv H) as H1; pose proof (Forall_inv_tail H) as H2; clear H
    | H : Forall _ [] |- _ => clear H
    | H : True |- _ => clear H
    end;
  repeat match goal with
    | H : disjoint16 ?p ?q |- _ =>
        lazymatch goal with
        | _ : disjoint16 q p |- _ => fail
        | _ => pose proof (@disjoint16_sym _ _ H)
        end
    end.

(** Read a buffer through a sequence of calls: the call that wrote it
    gives its elements, the calls on other buffers are skipped. *)
Ltac read_through :=
  repeat first
    [ rewrite mat4mult_load
    | rewrite mat4identity_load
    | rewrite mat4rotx_load
    | rewrite mat4roty_load
    | rewrite mat4rotz_load
    | rewrite mat4scale_load
    | rewrite mat4translate_load
    | rewrite mat4perspective_load
    | rewrite mat4mult_frame by assumption
    | rewrite mat4identity_frame by assumption
    | rewrite mat4rotx_frame by assumption
    | rewrite mat4roty_frame by assumption
    | rewrite mat4rotz_frame by assumption
    | rewrite mat4scale_frame by assumption
    | rewrite mat4translate_frame by assumption
    | rewrite mat4perspective_frame by assumption ].

Section RenderLoopFacts.
Context {F : Type} {Ar : Arith F} {Tr : Trig F}.
Local Open Scope Z_scope.
#[local] Opaque mat4mult mat4identity mat4rotx mat4roty mat4rotz mat4scale
  mat4translate mat4perspective.

Lemma render_frame_events (junk : nat -> local F) (b : buffers) (c : literals F)
    (i : inputs F) (m : mem F) :
  buffers_ok b ->
  snd (render_frame junk b c i m)
  = [Upload location_LV
       (spec_product (rotz_elems (mouse_phi i)) (rotx_elems (mouse_theta i)));
     Upload location_MV
       (spec_product (translate_elems (of_int 0) (of_int 0) (of_int (-5)))
          (spec_product (roty_elems (key_phi i)) (rotx_elems (key_theta i))));
     Upload location_P
       (perspective_elems (lit_pi_6 c) (of_int 1) (lit_0_1 c) (of_int 100));
     Draw dino;
     Upload location_MV
       (spec_product (translate_elems (of_int 0) (of_int 0) (of_int (-5)))
          (spec_product (roty_elems (time i))
             (translate_elems (of_int 0) (of_int 0) (lit_neg_1_2 c))));
     Upload location_P
       (perspective_elems (lit_pi_6 c) (of_int 1) (lit_0_1 c) (of_int 100));
     Draw earth].
Proof.
  intros Hok. buffers_facts Hok.
  unfold render_frame, main_modelview. cbv zeta. cbn [snd].
  apply cons_eq; [apply f_equal; read_through; reflexivity|].
  apply cons_eq; [apply f_equal; read_through; reflexivity|].
  apply cons_eq; [apply f_equal; read_through; reflexivity|].
  apply cons_eq; [reflexivity|].
  apply cons_eq; [apply f_equal; read_through; reflexivity|].
  apply cons_eq; [apply f_equal; read_through; reflexivity|].
  reflexivity.
Qed.

End RenderLoopFacts.

Section RenderLoopFrame.
Context {F : Type} {Ar : Arith F} {Tr : Trig F}.
Local Open Scope Z_scope.

Lemma render_frame_outside (junk : nat -> local F) (b : buffers) (c : literals F)
    (i : inputs F) (m : mem F) (a : addr) :
  ~ in_buffers b a -> fst (render_frame junk b c i m) a = m a.
Proof.
  intros Hout. unfold in_buffers in Hout.
  apply Forall_Exists_neg in Hout.
  repeat match goal with
    | H : Forall _ (_ :: _) |- _ =>
        let H1 := fresh "Hn" in
        let H2 := fresh "Hf" in
        pose proof (Forall_inv H) as H1; pose proof (Forall_inv_tail H) as H2; clear H
    | H : Forall _ [] |- _ => clear H
    end.
  unfold render_frame, main_modelview. cbv zeta. cbn [fst].
  repeat first
    [ rewrite mat4mult_outside by assumption
    | rewrite mat4identity_outside by assumption
    | rewrite mat4rotx_outside by assumption
    | rewrite mat4roty_outside by assumption
    | rewrite mat4rotz_outside by assumption
    | rewrite mat4translate_outside by assumption
    | rewrite mat4perspective_outside by assumption ].
  reflexivity.
Qed.
End RenderLoopFrame.

(** X3.  The events of one pass of the render loop, for distinct arrays:
    the light-view matrix is [rotz(mouse phi)·rotx(mouse theta)]; the dino
    is drawn with the model-view [translate(0,0,-5)·(roty(key phi)·rotx(key
    theta))]; the earth is drawn with [translate(0,0,-5)·(roty(time)·
    translate(0,0,-1.2))], in which the [mat4rotz(MV, M_PI/2)] of line 362
    leaves no trace; the projection is handed over twice, unchanged.  The
    events depend on the inputs of the pass only, not on what the arrays or
    [Mtemp] held before. *)
Theorem render_frame_trace :
  forall (F : Type) (Ar : Arith F) (Tr : Trig F) (junk junk' : nat -> local F)
         (b : buffers) (c : literals F) (i : inputs F) (m m' : mem F),
    buffers_ok b ->
    snd (render_frame junk b c i m)
    = [Upload location_LV
         (spec_product (rotz_elems (mouse_phi i)) (rotx_elems (mouse_theta i)));
       Upload location_MV
         (spec_product (translate_elems (of_int 0) (of_int 0) (of_int (-5)))
            (spec_product (roty_elems (key_phi i)) (rotx_elems (key_theta i))));
       Upload location_P
         (perspective_elems (lit_pi_6 c) (of_int 1) (lit_0_1 c) (of_int 100));
       Draw dino;
       Upload location_MV
         (spec_product (translate_elems (of_int 0) (of_int 0) (of_int (-5)))
            (spec_product (roty_elems (time i))
               (translate_elems (of_int 0) (of_int 0) (lit_neg_1_2 c))));
       Upload location_P
         (perspective_elems (lit_pi_6 c) (of_int 1) (lit_0_1 c) (of_int 100));
       Draw earth]
    /\ snd (render_frame junk b c i m) = snd (render_frame junk' b c i m').
Proof.
  intros F Ar Tr junk junk' b c i m m' Hok.
  split; [now apply render_frame_events|].
  now rewrite !render_frame_events.
Qed.

(** X4.  The sixteen calls of the matrix routines in one pass of the
    render loop, lines 328-369, write into the seven arrays [MV], [P], [LV],
    [T], [R], [Rx], [Rz] and into no other cell of the memory of [float]
    objects.  What else a pass assigns ([width], [height], [time], the
    uniform locations, the state of the two rotators) is not written by a
    matrix routine and is no part of [render_frame]. *)
Theorem render_frame_footprint :
  forall (F : Type) (Ar : Arith F) (Tr : Trig F) (junk : nat -> local F)
         (b : buffers) (c : literals F) (i : inputs F) (m : mem F) (a : addr),
    ~ in_buffers b a -> fst (render_frame junk b c i m) a = m a.
Proof. intros. now apply render_frame_outside. Qed.

Section RenderLoopRun.
Context {F : Type} {Ar : Arith F} {Tr : Trig F}.

Lemma render_loop_events (junk : nat -> nat -> local F) (b : buffers) (c : literals F)
    (frames : list (inputs F)) :
  buffers_ok b ->
  forall (k : nat) (m : mem F),
    snd (render_loop junk b c frames k m) = flat_map (pass_events c) frames.
Proof.
  intros Hok. induction frames as [|i rest IH]; intros k m; [reflexivity|].
  cbn [render_loop flat_map].
  pose proof (render_frame_events (junk k) b c i m Hok) as Hi.
  destruct (render_frame (junk k) b c i m) as [m1 es]. cbn [snd] in Hi.
  specialize (IH (S k) m1).
  destruct (render_loop junk b c rest (S k) m1) as [m2 es']. cbn [snd] in *.
  now rewrite Hi, IH.
Qed.
End RenderLoopRun.

(** X13.  A run of the render loop keeps no matrix state from one pass to
    the next: for distinct arrays the matrices it hands to the graphics
    library and the meshes it draws are the events of each pass in turn,
    each determined by the inputs of that pass and not by the memory or
    the stack contents the run started with, seven per pass. *)
Theorem render_loop_trace :
  forall (F : Type) (Ar : Arith F) (Tr : Trig F) (junk junk' : nat -> nat -> local F)
         (b : buffers) (c : literals F) (frames : list (inputs F)) (k k' : nat)
         (m m' : mem F),
    buffers_ok b ->
    snd (render_loop junk b c frames k m) = flat_map (pass_events c) frames
    /\ length (snd (render_loop junk b c frames k m)) = (7 * length frames)%nat
    /\ snd (render_loop junk b c frames k m) = snd (render_loop junk' b c frames k' m').
Proof.
  intros F Ar Tr junk junk' b c frames k k' m m' Hok.
  split; [now apply render_loop_events|].
  split; [|now rewrite !render_loop_events by exact Hok].
  rewrite render_loop_events by exact Hok.
  clear. induction frames as [|i rest IH]; [reflexivity|].
  cbn [flat_map]. rewrite length_app, IH. cbn [pass_events length]. lia.
Qed.

(** ** Further properties in exact arithmetic *)

Ltac real_entries :=
  cbv -[Rplus Rmult Rminus Ropp Rdiv Rinv cos sin tan IZR rd PI].

Section RigidMotions.
Local Open Scope R_scope.

(** A list of sixteen elements is the list of its elements. *)
Lemma list16_eta (A : list R) :
  length A = 16%nat -> A = map (elt A) idx16.
Proof.
  intros H.
  do 16 (destruct A as [|? A]; [discriminate H|]).
  destruct A; [reflexivity | discriminate H].
Qed.

Lemma spec_product_length (A B : list R) : length (spec_product A B) = 16%nat.
Proof. reflexivity. Qed.

Lemma rigid_spec_product (A B : list R) :
  length A = 16%nat -> length B = 16%nat ->
  rigid A -> rigid B -> rigid (spec_product A B).
Proof.
  intros HA HB.
  rewrite (list16_eta A HA), (list16_eta B HB).
  generalize (elt A). generalize (elt B). clear. intros b a.
  unfold rigid. real_entries.
  generalize (a 0%Z) (a 1%Z) (a 2%Z) (a 3%Z) (a 4%Z) (a 5%Z) (a 6%Z) (a 7%Z)
    (a 8%Z) (a 9%Z) (a 10%Z) (a 11%Z) (a 12%Z) (a 13%Z) (a 14%Z) (a 15%Z).
  generalize (b 0%Z) (b 1%Z) (b 2%Z) (b 3%Z) (b 4%Z) (b 5%Z) (b 6%Z) (b 7%Z)
    (b 8%Z) (b 9%Z) (b 10%Z) (b 11%Z) (b 12%Z) (b 13%Z) (b 14%Z) (b 15%Z).
  intros b0 b1 b2 b3 b4 b5 b6 b7 b8 b9 b10 b11 b12 b13 b14 b15.
  intros a0 a1 a2 a3 a4 a5 a6 a7 a8 a9 a10 a11 a12 a13 a14 a15.
  intros (A00 & A11 & A22 & A01 & A02 & A12 & A3 & A7 & A11' & A15).
  intros (B00 & B11 & B22 & B01 & B02 & B12 & B3 & B7 & B11' & B15).
  subst a3 a7 a11 a15 b3 b7 b11 b15.
  split; [nsatz|]. split; [nsatz|]. split; [nsatz|].
  split; [nsatz|]. split; [nsatz|]. split; [nsatz|].
  split; [ring|]. split; [ring|]. split; ring.
Qed.

Lemma rigid_identity : rigid identity_elems.
Proof. unfold rigid. real_entries. repeat split; ring. Qed.

Lemma rigid_rotx (t : R) : rigid (rotx_elems t).
Proof.
  unfold rigid. real_entries. pose proof (sin2_cos2 t) as H. unfold Rsqr in H.
  repeat split; try ring; nra.
Qed.

Lemma rigid_roty (t : R) : rigid (roty_elems t).
Proof.
  unfold rigid. real_entries. pose proof (sin2_cos2 t) as H. unfold Rsqr in H.
  repeat split; try ring; nra.
Qed.

Lemma rigid_rotz (t : R) : rigid (rotz_elems t).
Proof.
  unfold rigid. real_entries. pose proof (sin2_cos2 t) as H. unfold Rsqr in H.
  repeat split; try ring; nra.
Qed.

Lemma rigid_translate (x y z : R) : rigid (translate_elems x y z).
Proof. unfold rigid. real_entries. repeat split; ring. Qed.
End RigidMotions.

Section ExactExtras.
Local Open Scope R_scope.

(** X7.  In exact arithmetic the rigid motions (orthonormal 3x3 block,
    bottom row 0 0 0 1) are closed under [mat4mult], and [mat4identity],
    the three rotations and [mat4translate] write rigid motions. *)
Theorem rigid_motions_closed :
  forall (junk : local R) (m : mem R) (A B Out M : addr) (t x y z : R),
    (rigid (load16 m A) -> rigid (load16 m B) ->
     rigid (load16 (mat4mult junk m A B Out) Out))
    /\ rigid (load16 (mat4identity m M) M)
    /\ rigid (load16 (mat4rotx m M t) M)
    /\ rigid (load16 (mat4roty m M t) M)
    /\ rigid (load16 (mat4rotz m M t) M)
    /\ rigid (load16 (mat4translate m M x y z) M).
Proof.
  intros junk m A B Out M t x y z.
  split; [intros HA HB; rewrite mat4mult_load; now apply rigid_spec_product|].
  split; [rewrite mat4identity_load; apply rigid_identity|].
  split; [rewrite mat4rotx_load; apply rigid_rotx|].
  split; [rewrite mat4roty_load; apply rigid_roty|].
  split; [rewrite mat4rotz_load; apply rigid_rotz|].
  rewrite mat4translate_load. apply rigid_translate.
Qed.

Lemma rotx_add (a b : R) :
  spec_product (rotx_elems a) (rotx_elems b) = rotx_elems (a + b).
Proof.
  unfold rotx_elems. cbn [fcos fsin trigR]. rewrite cos_plus, sin_plus. real_entries.
  repeat (apply cons_eq; [ring|]). reflexivity.
Qed.

Lemma roty_add (a b : R) :
  spec_product (roty_elems a) (roty_elems b) = roty_elems (a + b).
Proof.
  unfold roty_elems. cbn [fcos fsin trigR]. rewrite cos_plus, sin_plus. real_entries.
  repeat (apply cons_eq; [ring|]). reflexivity.
Qed.

Lemma rotz_add (a b : R) :
  spec_product (rotz_elems a) (rotz_elems b) = rotz_elems (a + b).
Proof.
  unfold rotz_elems. cbn [fcos fsin trigR]. rewrite cos_plus, sin_plus. real_entries.
  repeat (apply cons_eq; [ring|]). reflexivity.
Qed.

(** X8.  In exact arithmetic the product of two rotations about the same
    axis is the rotation by the sum of the angles, and the rotation by the
    angle zero is the identity. *)
Theorem rotations_add_angles :
  forall (junk : local R) (m : mem R) (A B Out : addr) (a b : R),
    disjoint16 A B ->
    load16 (mat4mult junk (mat4rotx (mat4rotx m A a) B b) A B Out) Out
    = load16 (mat4rotx m Out (a + b)) Out
    /\ load16 (mat4mult junk (mat4roty (mat4roty m A a) B b) A B Out) Out
       = load16 (mat4roty m Out (a + b)) Out
    /\ load16 (mat4mult junk (mat4rotz (mat4rotz m A a) B b) A B Out) Out
       = load16 (mat4rotz m Out (a + b)) Out
    /\ load16 (mat4rotx m A 0) A = load16 (mat4identity m A) A
    /\ load16 (mat4roty m A 0) A = load16 (mat4identity m A) A
    /\ load16 (mat4rotz m A 0) A = load16 (mat4identity m A) A.
Proof.
  intros junk m A B Out a b Hd. apply disjoint16_sym in Hd.
  split; [|split; [|split; [|split; [|split]]]].
  - rewrite mat4mult_load, mat4rotx_load, mat4rotx_frame by exact Hd.
    rewrite !mat4rotx_load.
    apply rotx_add.
  - rewrite mat4mult_load, mat4roty_load, mat4roty_frame by exact Hd.
    rewrite !mat4roty_load.
    apply roty_add.
  - rewrite mat4mult_load, mat4rotz_load, mat4rotz_frame by exact Hd.
    rewrite !mat4rotz_load.
    apply rotz_add.
  - rewrite mat4rotx_load, mat4identity_load. cbn [fcos fsin fneg arithR trigR].
    rewrite cos_0, sin_0, Ropp_0. reflexivity.
  - rewrite mat4roty_load, mat4identity_load. cbn [fcos fsin fneg arithR trigR].
    rewrite cos_0, sin_0, Ropp_0. reflexivity.
  - rewrite mat4rotz_load, mat4identity_load. cbn [fcos fsin fneg arithR trigR].
    rewrite cos_0, sin_0, Ropp_0. reflexivity.
Qed.

(** X9.  In exact arithmetic the product of two translations is the
    translation by the sum of the offsets, in either order. *)
Theorem translations_add :
  forall (junk : local R) (m : mem R) (A B Out : addr) (x y z x' y' z' : R),
    disjoint16 A B ->
    let m' := mat4translate (mat4translate m A x y z) B x' y' z' in
    load16 (mat4mult junk m' A B Out) Out
    = load16 (mat4translate m Out (x + x') (y + y') (z + z')) Out
    /\ load16 (mat4mult junk m' B A Out) Out = load16 (mat4mult junk m' A B Out) Out.
Proof.
  intros junk m A B Out x y z x' y' z' Hd m'. subst m'. apply disjoint16_sym in Hd.
  rewrite !mat4mult_load, !mat4translate_load, !mat4translate_frame by exact Hd.
  rewrite !mat4translate_load.
  split; real_entries; repeat (apply cons_eq; [ring|]); reflexivity.
Qed.

(** X10.  In exact arithmetic the matrix of [mat4scale] acts as a number:
    multiplied on either side with a matrix [M] it gives [M] with all
    sixteen elements, the fourth row included, multiplied by the factor. *)
Theorem scale_is_scalar :
  forall (junk : local R) (m : mem R) (S M Out : addr) (s : R),
    disjoint16 S M ->
    let m' := mat4scale m S s in
    load16 (mat4mult junk m' S M Out) Out = map (Rmult s) (load16 m M)
    /\ load16 (mat4mult junk m' M S Out) Out = map (Rmult s) (load16 m M).
Proof.
  intros junk m S M Out s Hd m'. subst m'.
  rewrite !mat4mult_load, !mat4scale_load, !mat4scale_frame by exact Hd.
  split; real_entries; repeat (apply cons_eq; [ring|]); reflexivity.
Qed.

(** X11.  In exact arithmetic, for distinct and non-zero [zNear] and
    [zFar]: the product of the projection with a translation to a point at
    depth [-zNear] has, in its last column, [w = zNear] and [z = -zNear],
    so the depth [z / w] is -1; at depth [-zFar] it has [w = zFar] and
    [z = zFar], so the depth [z / w] is +1.  The near and far planes go to
    depth -1 and +1 after the division by [w]. *)
Theorem perspective_depth_range :
  forall (junk : local R) (m : mem R) (P T Out : addr) (fov aspect zNear zFar x y : R),
    disjoint16 P T -> zFar <> zNear -> zNear <> 0 -> zFar <> 0 ->
    let near := load16 (mat4mult junk
                  (mat4translate (mat4perspective m P fov aspect zNear zFar) T x y (- zNear))
                  P T Out) Out in
    let far := load16 (mat4mult junk
                 (mat4translate (mat4perspective m P fov aspect zNear zFar) T x y (- zFar))
                 P T Out) Out in
    elt near 15 = zNear /\ elt near 14 = (- zNear)%R
    /\ elt far 15 = zFar /\ elt far 14 = zFar
    /\ (elt near 14 / elt near 15 = -1)%R
    /\ (elt far 14 / elt far 15 = 1)%R.
Proof.
  intros junk m P T Out fov aspect zNear zFar x y Hd Hz Hn Hf near far.
  assert (H : elt near 15 = zNear /\ elt near 14 = (- zNear)%R
              /\ elt far 15 = zFar /\ elt far 14 = zFar).
  { subst near far. apply disjoint16_sym in Hd.
    rewrite !mat4mult_load, !mat4translate_load, !mat4translate_frame by exact Hd.
    rewrite !mat4perspective_load.
    real_entries.
    assert (Hne : zFar - zNear <> 0) by lra.
    repeat split; field; exact Hne. }
  destruct H as (Hn15 & Hn14 & Hf15 & Hf14).
  rewrite Hn15, Hn14, Hf15, Hf14.
  repeat split; try reflexivity; field; assumption.
Qed.
End ExactExtras.

Section RenderExact.
Local Open Scope R_scope.

Lemma light_view_entries (p t : R) :
  spec_product (rotz_elems p) (rotx_elems t)
  = [cos p; sin p; 0; 0;
     - sin p * cos t; cos p * cos t; sin t; 0;
     sin p * sin t; - cos p * sin t; cos t; 0;
     0; 0; 0; 1].
Proof. real_entries. repeat (apply cons_eq; [ring|]). reflexivity. Qed.

Lemma dino_modelview_entries (p t : R) :
  spec_product (translate_elems 0 0 (-5)) (spec_product (roty_elems p) (rotx_elems t))
  = [cos p; 0; - sin p; 0;
     sin p * sin t; cos t; cos p * sin t; 0;
     sin p * cos t; - sin t; cos p * cos t; 0;
     0; 0; -5; 1].
Proof. real_entries. repeat (apply cons_eq; [ring|]). reflexivity. Qed.

Lemma earth_modelview_entries (t z : R) :
  spec_product (translate_elems 0 0 (-5))
    (spec_product (roty_elems t) (translate_elems 0 0 z))
  = [cos t; 0; - sin t; 0;
     0; 1; 0; 0;
     sin t; 0; cos t; 0;
     z * sin t; 0; z * cos t - 5; 1].
Proof. real_entries. repeat (apply cons_eq; [ring|]). reflexivity. Qed.

(** X5.  In exact arithmetic, the light-view and the two model-view
    matrices of a pass, element by element; the origin of the earth lies at
    distance [|-1.2|] from the origin of the dino, whatever the time and
    the angles. *)
Theorem render_frame_matrices :
  forall (junk : nat -> local R) (b : buffers) (c : literals R) (i : inputs R) (m : mem R),
    buffers_ok b ->
    let events := snd (render_frame junk b c i m) in
    let z := lit_neg_1_2 c in
    uploads_to location_LV events
    = [[cos (mouse_phi i); sin (mouse_phi i); 0; 0;
        - sin (mouse_phi i) * cos (mouse_theta i); cos (mouse_phi i) * cos (mouse_theta i);
        sin (mouse_theta i); 0;
        sin (mouse_phi i) * sin (mouse_theta i); - cos (mouse_phi i) * sin (mouse_theta i);
        cos (mouse_theta i); 0;
        0; 0; 0; 1]]
    /\ uploads_to location_MV events
       = [[cos (key_phi i); 0; - sin (key_phi i); 0;
           sin (key_phi i) * sin (key_theta i); cos (key_theta i);
           cos (key_phi i) * sin (key_theta i); 0;
           sin (key_phi i) * cos (key_theta i); - sin (key_theta i);
           cos (key_phi i) * cos (key_theta i); 0;
           0; 0; -5; 1];
          [cos (time i); 0; - sin (time i); 0;
           0; 1; 0; 0;
           sin (time i); 0; cos (time i); 0;
           z * sin (time i); 0; z * cos (time i) - 5; 1]]
    /\ match uploads_to location_MV events with
       | [D; E] =>
           (elt E 12 - elt D 12) * (elt E 12 - elt D 12)
           + (elt E 13 - elt D 13) * (elt E 13 - elt D 13)
           + (elt E 14 - elt D 14) * (elt E 14 - elt D 14) = z * z
       | _ => False
       end.
Proof.
  intros junk b c i m Hok events z. subst events z.
  rewrite (render_frame_events junk b c i m Hok).
  cbn [uploads_to flat_map uniform_eqb app].
  rewrite light_view_entries, dino_modelview_entries, earth_modelview_entries.
  split; [reflexivity|]. split; [reflexivity|].
  cbv [elt nth Z.to_nat Pos.to_nat Pos.iter_op Nat.add].
  pose proof (sin2_cos2 (time i)) as H. unfold Rsqr in H. nra.
Qed.

(** X6.  In exact arithmetic every light-view and model-view matrix
    handed over during a pass is a rigid motion. *)
Theorem render_frame_rigid :
  forall (junk : nat -> local R) (b : buffers) (c : literals R) (i : inputs R) (m : mem R),
    buffers_ok b ->
    let events := snd (render_frame junk b c i m) in
    Forall rigid (uploads_to location_LV events ++ uploads_to location_MV events).
Proof.
  intros junk b c i m Hok events. subst events.
  rewrite (render_frame_events junk b c i m Hok).
  cbn [uploads_to flat_map uniform_eqb app].
  repeat (apply Forall_cons;
          [repeat first
             [ apply rigid_spec_product; [reflexivity | reflexivity | |]
             | apply rigid_rotx | apply rigid_roty | apply rigid_rotz
             | apply rigid_translate ]|]).
  apply Forall_nil.
Qed.
End RenderExact.

(** ** Further properties in binary32 arithmetic *)

Section NaN.
Local Open Scope Z_scope.

Lemma mat4mult_rd (F : Type) (Ar : Arith F) (junk : local F) (m : mem F)
    (M1 M2 Mout : addr) (i : Z) :
  0 <= i < 16 ->
  rd (mat4mult junk m M1 M2 Mout) Mout i
  = spec_entry (load16 m M1) (load16 m M2) (i mod 4) (i / 4).
Proof.
  intros Hi. unfold rd. rewrite mat4mult_mem.
  destruct (Z.leb_spec Mout (Mout + i)), (Z.ltb_spec (Mout + i) (Mout + 16));
    cbn [andb]; try lia.
  replace (Mout + i - Mout) with i by lia. reflexivity.
Qed.

Lemma mul_nan_r (x : float32) : SFmul prec emax x S754_nan = S754_nan.
Proof. destruct x; reflexivity. Qed.

Lemma mul_nan_l (x : float32) : SFmul prec emax S754_nan x = S754_nan.
Proof. reflexivity. Qed.

Lemma add_nan_r (x : float32) : SFadd prec emax x S754_nan = S754_nan.
Proof. destruct x; reflexivity. Qed.

Lemma add_nan_l (x : float32) : SFadd prec emax S754_nan x = S754_nan.
Proof. reflexivity. Qed.

Ltac four_cases r Hr :=
  let H := fresh "Hc" in
  assert (H : r = 0 \/ r = 1 \/ r = 2 \/ r = 3) by lia; clear Hr;
  destruct H as [H|[H|[H|H]]]; subst r.

Ltac nan_entry H :=
  rewrite mat4mult_rd by (cbv [col_major]; lia);
  cbv [col_major Z.mul Z.add Pos.mul Pos.add Pos.succ Z.modulo Z.div Z.div_eucl
       Z.pos_div_eucl Z.leb Z.ltb Z.compare Pos.compare Pos.compare_cont
       Z.sub Z.opp Z.pos_sub Z.succ_double Z.pred_double Z.double Pos.pred_double
       spec_entry elt load16 idx16 map nth Z.to_nat Pos.to_nat Pos.iter_op Nat.add] in *;
  rewrite H; cbn [fadd fmul arith32];
  rewrite ?mul_nan_l, ?mul_nan_r, ?add_nan_l, ?add_nan_r; reflexivity.

(** X12.  In binary32 a NaN in an operand of [mat4mult] reaches a whole
    row or column of the result: a NaN in row [r] of [M1] makes every
    element of row [r] of the product a NaN, and a NaN in column [c] of
    [M2] makes every element of column [c] a NaN. *)
Theorem mat4mult_nan_propagates :
  forall (junk : local float32) (m : mem float32) (M1 M2 Mout : addr) (r k c : Z),
    0 <= r < 4 -> 0 <= k < 4 -> 0 <= c < 4 ->
    (rd m M1 (col_major r k) = S754_nan ->
     rd (mat4mult junk m M1 M2 Mout) Mout (col_major r c) = S754_nan)
    /\ (rd m M2 (col_major k c) = S754_nan ->
        rd (mat4mult junk m M1 M2 Mout) Mout (col_major r c) = S754_nan).
Proof.
  intros junk m M1 M2 Mout r k c Hr Hk Hc.
  four_cases r Hr; four_cases k Hk; four_cases c Hc;
    (split; intros H; nan_entry H).
Qed.
End NaN.

(** ** The further properties at concrete inputs *)

Section FurtherInstances.
Local Open Scope Z_scope.

Lemma main_buffers_ok : buffers_ok main_buffers.
Proof.
  unfold buffers_ok, main_buffers. cbn [all_disjoint buf_MV buf_P buf_LV buf_T buf_R buf_Rx buf_Rz].
  repeat (split; [repeat (apply Forall_cons; [unfold disjoint16; lia|]); apply Forall_nil|]).
  exact I.
Qed.

Lemma outside_main_buffers : ~ in_buffers main_buffers 200.
Proof.
  unfold in_buffers, main_buffers.
  cbn [buf_MV buf_P buf_LV buf_T buf_R buf_Rx buf_Rz].
  apply Forall_Exists_neg.
  repeat (apply Forall_cons; [unfold within16; lia|]). apply Forall_nil.
Qed.

(** X1 at the address 16, next to an output buffer at 0. *)
Lemma routines_write_only_output_witness :
  mat4mult (fun _ => 0%R) IZR 32 48 0 16 = IZR 16
  /\ mat4identity IZR 0 16 = IZR 16
  /\ mat4rotx IZR 0 1%R 16 = IZR 16
  /\ mat4roty IZR 0 1%R 16 = IZR 16
  /\ mat4rotz IZR 0 1%R 16 = IZR 16
  /\ mat4scale IZR 0 1%R 16 = IZR 16
  /\ mat4translate IZR 0 1%R 2%R 3%R 16 = IZR 16
  /\ mat4perspective IZR 0 1%R 2%R 3%R 4%R 16 = IZR 16.
Proof.
  apply (routines_write_only_output R arithR trigR (fun _ => 0%R) IZR 0 32 48 16
           1%R 1%R 2%R 3%R 4%R).
  unfold within16. lia.
Defined.

(** X2 on two memories that differ in cell 3 of the buffer at 0. *)
Lemma constructors_overwrite_witness :
  mat4scale IZR 0 2%R 3 = mat4scale (wr IZR 0 3 7%R) 0 2%R 3.
Proof.
  assert (H : forall a, ~ within16 0 a -> IZR a = wr IZR 0 3 7%R a).
  { intros a Ha. unfold wr.
    destruct (Z.eqb_spec a (0 + 3)); [unfold within16 in Ha; lia | reflexivity]. }
  exact (proj1 (proj2 (proj2 (proj2 (proj2
           (proj1 (constructors_overwrite R arithR trigR IZR (wr IZR 0 3 7%R) 0
                     2%R 1%R 2%R 3%R 4%R H) 3)))))).
Defined.

(** X3 from two different memories. *)
Lemma render_frame_trace_witness :
  snd (render_frame (fun _ _ => 0%R) main_buffers literals_exact inputs_exact IZR)
  = snd (render_frame (fun _ _ => 1%R) main_buffers literals_exact inputs_exact
           (fun _ => 0%R)).
Proof.
  exact (proj2 (render_frame_trace R arithR trigR (fun _ _ => 0%R) (fun _ _ => 1%R)
                  main_buffers literals_exact inputs_exact IZR (fun _ => 0%R)
                  main_buffers_ok)).
Defined.

(** X4 at the address 200, beyond the seven arrays. *)
Lemma render_frame_footprint_witness :
  fst (render_frame (fun _ _ => 0%R) main_buffers literals_exact inputs_exact IZR) 200
  = IZR 200.
Proof.
  exact (render_frame_footprint R arithR trigR (fun _ _ => 0%R) main_buffers
           literals_exact inputs_exact IZR 200 outside_main_buffers).
Defined.

(** X5: the light-view matrix of a pass with the angles 1 and 2. *)
Lemma render_frame_matrices_witness :
  uploads_to location_LV
    (snd (render_frame (fun _ _ => 0%R) main_buffers literals_exact inputs_exact IZR))
  = [[cos 1; sin 1; 0; 0;
      - sin 1 * cos 2; cos 1 * cos 2; sin 2; 0;
      sin 1 * sin 2; - cos 1 * sin 2; cos 2; 0;
      0; 0; 0; 1]%R].
Proof.
  pose proof (render_frame_matrices (fun _ _ => 0%R) main_buffers literals_exact
                inputs_exact IZR main_buffers_ok) as H.
  cbv zeta in H. exact (proj1 H).
Defined.

(** X6 on the same pass. *)
Lemma render_frame_rigid_witness :
  Forall rigid
    (uploads_to location_LV
       (snd (render_frame (fun _ _ => 0%R) main_buffers literals_exact inputs_exact IZR))
     ++ uploads_to location_MV
          (snd (render_frame (fun _ _ => 0%R) main_buffers literals_exact inputs_exact
                  IZR))).
Proof.
  pose proof (render_frame_rigid (fun _ _ => 0%R) main_buffers literals_exact
                inputs_exact IZR main_buffers_ok) as H.
  cbv zeta in H. exact H.
Defined.

(** X7 on a rotation about x at 0 and a translation at 16. *)
Lemma rigid_motions_closed_witness :
  rigid (load16 (mat4mult (fun _ => 0%R)
                   (mat4translate (mat4rotx IZR 0 1%R) 16 1%R 2%R 3%R) 0 16 32) 32).
Proof.
  assert (Hd : disjoint16 16 0) by (unfold disjoint16; lia).
  apply (proj1 (rigid_motions_closed (fun _ => 0%R)
                  (mat4translate (mat4rotx IZR 0 1%R) 16 1%R 2%R 3%R) 0 16 32 0
                  0%R 0%R 0%R 0%R)).
  - rewrite mat4translate_frame by exact Hd. rewrite mat4rotx_load. apply rigid_rotx.
  - rewrite mat4translate_load. apply rigid_translate.
Defined.

(** X8 with the angles 1 and 2. *)
Lemma rotations_add_angles_witness :
  load16 (mat4mult (fun _ => 0%R) (mat4rotz (mat4rotz IZR 0 1%R) 16 2%R) 0 16 32) 32
  = load16 (mat4rotz IZR 32 (1 + 2)%R) 32.
Proof.
  assert (Hd : disjoint16 0 16) by (unfold disjoint16; lia).
  pose proof (rotations_add_angles (fun _ => 0%R) IZR 0 16 32 1%R 2%R Hd) as H.
  exact (proj1 (proj2 (proj2 H))).
Defined.

(** X9 with the offsets (1, 2, 3) and (4, 5, 6). *)
Lemma translations_add_witness :
  load16 (mat4mult (fun _ => 0%R)
            (mat4translate (mat4translate IZR 0 1%R 2%R 3%R) 16 4%R 5%R 6%R) 0 16 32) 32
  = load16 (mat4translate IZR 32 (1 + 4)%R (2 + 5)%R (3 + 6)%R) 32.
Proof.
  assert (Hd : disjoint16 0 16) by (unfold disjoint16; lia).
  pose proof (translations_add (fun _ => 0%R) IZR 0 16 32 1%R 2%R 3%R 4%R 5%R 6%R Hd)
    as H.
  cbv zeta in H. exact (proj1 H).
Defined.

(** X10 with the factor 2 and the matrix of the addresses 16 to 31. *)
Lemma scale_is_scalar_witness :
  load16 (mat4mult (fun _ => 0%R) (mat4scale IZR 0 2%R) 0 16 32) 32
  = map (Rmult 2) (load16 IZR 16).
Proof.
  assert (Hd : disjoint16 0 16) by (unfold disjoint16; lia).
  pose proof (scale_is_scalar (fun _ => 0%R) IZR 0 16 32 2%R Hd) as H.
  cbv zeta in H. exact (proj1 H).
Defined.

(** X11 with the planes of the render loop, 0.1 and 100: the depth of a
    point on the near plane. *)
Lemma perspective_depth_range_witness :
  (elt (load16 (mat4mult (fun _ => 0%R)
                  (mat4translate (mat4perspective IZR 0 (PI / 6)%R 1%R 0.1%R 100%R)
                     16 0%R 0%R (Ropp 0.1%R)) 0 16 32) 32) 14
   / elt (load16 (mat4mult (fun _ => 0%R)
                    (mat4translate (mat4perspective IZR 0 (PI / 6)%R 1%R 0.1%R 100%R)
                       16 0%R 0%R (Ropp 0.1%R)) 0 16 32) 32) 15
   = -1)%R.
Proof.
  assert (Hd : disjoint16 0 16) by (unfold disjoint16; lia).
  assert (Hz : 100%R <> 0.1%R) by lra.
  assert (Hn : 0.1%R <> 0%R) by lra.
  assert (Hf : 100%R <> 0%R) by lra.
  pose proof (perspective_depth_range (fun _ => 0%R) IZR 0 16 32
                (PI / 6)%R 1%R 0.1%R 100%R 0%R 0%R Hd Hz Hn Hf) as H.
  cbv zeta in H. exact (proj1 (proj2 (proj2 (proj2 (proj2 H))))).
Defined.

(** X12 with a NaN in element 0 of the first operand. *)
Lemma mat4mult_nan_propagates_witness :
  rd (mat4mult Binary32.zeros Binary32.mem_nan 0 16 32) 32 (col_major 0 1) = S754_nan.
Proof.
  apply (proj1 (mat4mult_nan_propagates Binary32.zeros Binary32.mem_nan 0 16 32 0 0 1
                  ltac:(lia) ltac:(lia) ltac:(lia))).
  reflexivity.
Defined.

(** X13 on a run of two passes. *)
Lemma render_loop_trace_witness :
  snd (render_loop (fun _ _ _ => 0%R) main_buffers literals_exact
         [inputs_exact; inputs_exact] 0 IZR)
  = flat_map (pass_events literals_exact) [inputs_exact; inputs_exact].
Proof.
  exact (proj1 (render_loop_trace R arithR trigR (fun _ _ _ => 0%R) (fun _ _ _ => 1%R)
                  main_buffers literals_exact [inputs_exact; inputs_exact] 0%nat 1%nat
                  IZR (fun _ => 0%R) main_buffers_ok)).
Defined.
End FurtherInstances.
